(** * fastify-renderer: the React renderer's dispatch, routing and hook code

    A shallow embedding of
      - [packages/fastify-renderer/src/node/renderers/react/ReactRenderer.tsx]
        ([stripBasePath], [routeTableVitePlugin], [workerStreamRender],
        [startRenderBus], [wrappedRender]),
      - the server-side render module ([staticRender]),
      - [packages/fastify-renderer/src/node/types.ts]
        ([FastifyRendererHook], [StreamWorkerEvent]) and [Renderer.ts]
        ([RenderableRegistration], [scriptTag]),
    followed by the properties established about them.

    JavaScript strings are modelled as [string]; every string operation
    used by the source ([startsWith], [slice], [includes], [replace] with a
    string pattern) works unit by unit, and is written out below. *)

From stdpp Require Import gmap strings list sorting.
From Stdlib Require Import Ascii ZArith Lia Permutation.

#[local] Set Warnings "-clear-no-such-hyp".

(** ** JavaScript string primitives *)

Module JsString.

(** [s.startsWith(b)] *)
Fixpoint startsWith (s b : string) {struct b} : bool :=
  match b with
  | "" => true
  | String cb b' =>
      match s with
      | "" => false
      | String cs s' => if decide (cs = cb) then startsWith s' b' else false
      end
  end.

(** [s.slice(n)] for a non-negative [n]: drops the first [n] units. *)
Fixpoint slice (s : string) (n : nat) {struct n} : string :=
  match n with
  | O => s
  | S n' => match s with
            | "" => ""
            | String _ s' => slice s' n'
            end
  end.

(** [s.includes(needle)] *)
Fixpoint includes (s needle : string) : bool :=
  startsWith s needle ||
  match s with
  | "" => false
  | String _ s' => includes s' needle
  end.

(** [s.replace(pat, repl)] with a string pattern: only the first
    occurrence is replaced.  [repl] is copied literally (the source's
    replacement has no [$] sequence). *)
Fixpoint replace (s pat repl : string) : string :=
  if startsWith s pat then repl +:+ slice s (String.length pat)
  else match s with
       | "" => ""
       | String c s' => String c (replace s' pat repl)
       end.

(** JavaScript truthiness of a [string | null] value. *)
Definition truthy (v : option string) : bool :=
  match v with
  | None => false
  | Some s => negb (String.eqb s "")
  end.

End JsString.

Import JsString.

(** ** [ReactRenderer.stripBasePath] *)

Definition stripBasePath (fullyQualifiedPath base : string) : string :=
  if startsWith fullyQualifiedPath base then
    let baseless := slice fullyQualifiedPath (String.length base) in
    if String.eqb baseless "" then "/" else baseless
  else fullyQualifiedPath.

(** ** [routeTableVitePlugin]: the two local helpers *)

Definition routeSortScore (path : string) : Z :=
  if includes path "*" then 2
  else if includes path ":" then 1
  else 0.

Definition pathToRegexpify (path : string) : string :=
  replace path "*" ":splat*".

(** ** Registrations ([Renderer.ts])

    [RenderableRegistration extends RenderOptions]; the [document] template
    is a function that no operation below inspects, and is left out. *)

Record RenderableRegistration := {
  layout : string;
  base : string;
  pathPattern : option string;
  renderable : string;
  isImperative : bool;
}.

(** An element of [routeableRenderables]: a registration whose
    [pathPattern] is known to be a string.  The element pushed for an
    imperative render is [Object.assign({}, found, { pathPattern })], where
    [found] is the result of [Array.prototype.find] and may be [undefined];
    [route_fields] keeps the object the other fields were copied from. *)
Record Routeable := {
  route_pathPattern : string;
  route_fields : option RenderableRegistration;
}.

Definition route_renderable (route : Routeable) : option string :=
  renderable <$> route_fields route.

(** ** [Array.prototype.sort] with a comparator

    The sort is stable (ECMAScript 2019); for a comparator that is a
    difference of scores every stable sort returns the same array, and
    insertion from the right is the simplest one to write. *)

Fixpoint sort_insert {A} (cmp : A → A → Z) (x : A) (l : list A) : list A :=
  match l with
  | [] => [x]
  | y :: l' => if (0 <? cmp x y)%Z then y :: sort_insert cmp x l' else x :: l
  end.

Definition Array_sort {A} (cmp : A → A → Z) (l : list A) : list A :=
  foldr (sort_insert cmp) [] l.

(** ** [routeTableVitePlugin.load] *)

(** [this.renderables.filter(route => route.base == base &&
    route.pathPattern !== undefined)] *)
Definition routeableOf (base' : string) (route : RenderableRegistration)
  : option Routeable :=
  if String.eqb (base route) base' then
    match pathPattern route with
    | Some p => Some {| route_pathPattern := p; route_fields := Some route |}
    | None => None
    end
  else None.

Definition filterRouteable (renderables : list RenderableRegistration)
    (base' : string) : list Routeable :=
  omap (routeableOf base') renderables.

(** [this.renderables.find(route => route.renderable == imperativeRenderable)] *)
Definition findRenderable (renderables : list RenderableRegistration)
    (imperativeRenderable : string) : option RenderableRegistration :=
  List.find (fun route => String.eqb (renderable route) imperativeRenderable)
            renderables.

(** The array just before it is sorted: the filtered registrations, then
    the imperative route when both query parameters are truthy. *)
Definition routeableRenderables (renderables : list RenderableRegistration)
    (base' : string) (imperativePathPattern imperativeRenderable : option string)
  : list Routeable :=
  let routeable := filterRouteable renderables base' in
  match imperativePathPattern, imperativeRenderable with
  | Some ipp, Some ir =>
      if truthy (Some ipp) && truthy (Some ir) then
        routeable ++ [ {| route_pathPattern := ipp;
                          route_fields := findRenderable renderables ir |} ]
      else routeable
  | _, _ => routeable
  end.

Definition routeCompare (a b : Routeable) : Z :=
  (routeSortScore (route_pathPattern a) - routeSortScore (route_pathPattern b))%Z.

Definition sortedRoutes (renderables : list RenderableRegistration)
    (base' : string) (imperativePathPattern imperativeRenderable : option string)
  : list Routeable :=
  Array_sort routeCompare
    (routeableRenderables renderables base' imperativePathPattern imperativeRenderable).

Definition tableEntry (base' : string) (route : Routeable)
  : string * option string :=
  (pathToRegexpify (stripBasePath (route_pathPattern route) base'),
   route_renderable route).

(** [pathsToModules]: the rows of the generated module, in order.  Both
    renderings of the module (lazy or not) print the rows in this order. *)
Definition pathsToModules (renderables : list RenderableRegistration)
    (base' : string) (imperativePathPattern imperativeRenderable : option string)
  : list (string * option string) :=
  tableEntry base'
    <$> sortedRoutes renderables base' imperativePathPattern imperativeRenderable.

(** ** Stream events ([types.ts]) *)

(** [StreamWorkerEvent.stack]: ['tail' | 'content' | 'head' | 'error'] *)
Inductive Stack := StackHead | StackTail | StackContent | StackError.

#[global] Instance Stack_eq_dec : EqDecision Stack.
Proof. solve_decision. Defined.

Definition Stack_to_nat (s : Stack) : nat :=
  match s with
  | StackHead => 0 | StackTail => 1 | StackContent => 2 | StackError => 3
  end.

Definition Stack_of_nat (n : nat) : option Stack :=
  match n with
  | 0 => Some StackHead | 1 => Some StackTail
  | 2 => Some StackContent | 3 => Some StackError
  | _ => None
  end.

#[global] Program Instance Stack_countable : Countable Stack :=
  inj_countable Stack_to_nat Stack_of_nat _.
Next Obligation. by intros []. Qed.

Record StreamWorkerEvent := {
  content : option string;
  stack : Stack;
}.

(** A [Promise<void>]: settled at most once, later [resolve]/[reject]
    calls have no effect. *)
Inductive PromiseState :=
| Pending
| Fulfilled
| Rejected (reason : string).

#[global] Instance PromiseState_eq_dec : EqDecision PromiseState.
Proof. solve_decision. Defined.

Definition resolve (p : PromiseState) : PromiseState :=
  match p with Pending => Fulfilled | _ => p end.

Definition reject (reason : string) (p : PromiseState) : PromiseState :=
  match p with Pending => Rejected reason | _ => p end.

Definition settled (p : PromiseState) : bool :=
  match p with Pending => false | _ => true end.

(** The render bus ([RenderBus.ts] is not in the sources) is written to
    only through [bus.push]; it is kept as the sequence of pushes it
    received, oldest first. *)
Definition RenderBus := list (Stack * option string).

Definition bus_push (stack' : Stack) (content' : option string)
    (bus : RenderBus) : RenderBus :=
  bus ++ [(stack', content')].

(** ** [ReactRenderer.workerStreamRender]

    What one call owns: the set [expectedStreamEnds], the promise built
    inside [workerPool.use], the bus it forwards to and whether
    [messageHandler] is currently registered on the worker. *)
Record StreamRender := {
  expectedStreamEnds : gset Stack;
  promise : PromiseState;
  bus : RenderBus;
  listening : bool;
}.

(** [new Set(['head', 'tail', 'content', 'error'])], nothing settled,
    handler not yet registered. *)
Definition newStreamRender (bus0 : RenderBus) : StreamRender :=
  {| expectedStreamEnds := {[StackHead; StackTail; StackContent; StackError]};
     promise := Pending;
     bus := bus0;
     listening := false |}.

(** [worker.on('message', messageHandler)] *)
Definition worker_on (r : StreamRender) : StreamRender :=
  {| expectedStreamEnds := expectedStreamEnds r;
     promise := promise r;
     bus := bus r;
     listening := true |}.

(** [cleanup]: [expectedStreamEnds.clear()] and
    [worker.off('message', messageHandler)]. *)
Definition cleanup (r : StreamRender) : StreamRender :=
  {| expectedStreamEnds := ∅;
     promise := promise r;
     bus := bus r;
     listening := false |}.

Definition isErrorEvent (ev : StreamWorkerEvent) : bool :=
  bool_decide (stack ev = StackError) && truthy (content ev).

Definition messageHandler (ev : StreamWorkerEvent) (r : StreamRender)
  : StreamRender :=
  (* if (stack === 'error' && content) reject(new Error(content)) *)
  let p1 :=
    if isErrorEvent ev then reject (default "" (content ev)) (promise r)
    else promise r in
  (* bus.push(stack, content, false) *)
  let bus1 := bus_push (stack ev) (content ev) (bus r) in
  match content ev with
  | None =>
      (* expectedStreamEnds.delete(stack) *)
      let ends := expectedStreamEnds r ∖ {[stack ev]} in
      if bool_decide (size ends = 0) then
        let r' := cleanup {| expectedStreamEnds := ends; promise := p1;
                             bus := bus1; listening := listening r |} in
        {| expectedStreamEnds := expectedStreamEnds r';
           promise := resolve (promise r');
           bus := bus r';
           listening := listening r' |}
      else
        {| expectedStreamEnds := ends; promise := p1;
           bus := bus1; listening := listening r |}
  | Some _ =>
      {| expectedStreamEnds := expectedStreamEnds r; promise := p1;
         bus := bus1; listening := listening r |}
  end.

(** The worker emits a ['message']: the handler runs only while it is
    registered. *)
Definition emit (ev : StreamWorkerEvent) (r : StreamRender) : StreamRender :=
  if listening r then messageHandler ev r else r.

Definition emitAll (evs : list StreamWorkerEvent) (r : StreamRender)
  : StreamRender :=
  foldl (fun r ev => emit ev r) r evs.

Definition endOf (s : Stack) : StreamWorkerEvent :=
  {| content := None; stack := s |}.

Definition chunkOf (s : Stack) (c : string) : StreamWorkerEvent :=
  {| content := Some c; stack := s |}.

(** ** The worker pool

    [prepare] builds the pool with [createPool({ create, dispose }, n)] and
    [workerStreamRender] goes through [this.workerPool.use(callback)].  The
    callback is in the source: it registers [messageHandler] on the lent
    worker, posts the job and returns the promise.  The pool itself comes
    from the [resource-pooler] package. *)

(** One [workerStreamRender] call: its state and, once the pool has run the
    callback, the worker it was handed. *)
Record Dispatch := {
  d_render : StreamRender;
  d_worker : option nat;
}.

(** Modelled from the spec: the state of the pool.  Workers are numbered
    from [0]; [idle] are the workers not lent, [borrowed] pairs each lent
    worker with the render that holds it, [waiting] is the queue of
    renders "at the pool boundary", oldest first, and [jobs] keeps every
    render requested so far by its number. *)
Record Pool := {
  idle : list nat;
  borrowed : list (nat * nat);
  waiting : list nat;
  jobs : gmap nat Dispatch;
}.

(** The callback passed to [use], run with worker [w] for job [j]. *)
Definition useCallback (w : nat) (d : Dispatch) : Dispatch :=
  {| d_render := worker_on (d_render d); d_worker := Some w |}.

(** Modelled from the spec: the pool of [resource-pooler] (a package, not
    part of the sources).  "On dispatch, the pool lends one idle
    WorkerHandle (blocking/suspending the caller if none is idle --
    backpressure is realized as queuing at the pool boundary)"; "the handle
    is always released back to the pool on both Completed and Failed".
    [pool_use] lends an idle worker or queues the job; [pool_release] runs
    when the callback's promise has settled, either way, and hands the
    worker to the oldest queued job if there is one. *)
Definition createPool (size : nat) : Pool :=
  {| idle := seq 0 size; borrowed := []; waiting := []; jobs := ∅ |}.

(** Modelled from the spec: [pool.use], the acquiring half.  An idle
    worker is lent at once and the callback runs with it; with no idle
    worker the caller queues at the pool boundary. *)
Definition pool_use (j : nat) (p : Pool) : Pool :=
  match idle p with
  | w :: rest =>
      {| idle := rest;
         borrowed := (w, j) :: borrowed p;
         waiting := waiting p;
         jobs := alter (useCallback w) j (jobs p) |}
  | [] =>
      {| idle := [];
         borrowed := borrowed p;
         waiting := waiting p ++ [j];
         jobs := jobs p |}
  end.

(** Modelled from the spec: [pool.use], the releasing half, "guaranteed
    release on all exit paths".  The worker goes to the oldest queued
    render if there is one, and back to the idle workers otherwise. *)
Definition pool_release (w : nat) (p : Pool) : Pool :=
  let others := filter (fun wj => wj.1 ≠ w) (borrowed p) in
  match waiting p with
  | j :: queue =>
      {| idle := idle p;
         borrowed := (w, j) :: others;
         waiting := queue;
         jobs := alter (useCallback w) j (jobs p) |}
  | [] =>
      {| idle := idle p ++ [w];
         borrowed := others;
         waiting := [];
         jobs := jobs p |}
  end.

Definition promiseOf (p : Pool) (j : nat) : option PromiseState :=
  (promise ∘ d_render) <$> jobs p !! j.

(** Modelled from the spec: what the pool waits for before it releases
    worker [w], the promise returned by the callback of the render that
    holds [w] being settled, resolved or rejected. *)
Definition borrowerSettled (w : nat) (p : Pool) : bool :=
  match list_find (fun wj => wj.1 = w) (borrowed p) with
  | Some (_, (_, j)) =>
      match promiseOf p j with
      | Some st => settled st
      | None => false
      end
  | None => false
  end.

Inductive PoolEvent :=
| RenderRequested (j : nat) (bus0 : RenderBus)
| WorkerMessage (w : nat) (ev : StreamWorkerEvent).

(** A message of worker [w] reaches every handler registered on [w]. *)
Definition deliver (w : nat) (ev : StreamWorkerEvent) (d : Dispatch) : Dispatch :=
  if bool_decide (d_worker d = Some w)
  then {| d_render := emit ev (d_render d); d_worker := d_worker d |}
  else d.

(** One event of the main thread's loop: a render is requested
    ([workerStreamRender] seeds its state and calls [use]), or a worker
    posts a message (the registered handlers run, and the pool releases
    the worker if that settled its borrower's promise). *)
Definition pool_step (p : Pool) (e : PoolEvent) : Pool :=
  match e with
  | RenderRequested j bus0 =>
      match jobs p !! j with
      | Some _ => p
      | None =>
          pool_use j
            {| idle := idle p; borrowed := borrowed p; waiting := waiting p;
               jobs := <[j := {| d_render := newStreamRender bus0;
                                 d_worker := None |}]> (jobs p) |}
      end
  | WorkerMessage w ev =>
      let p' := {| idle := idle p; borrowed := borrowed p;
                   waiting := waiting p;
                   jobs := deliver w ev <$> jobs p |} in
      if borrowerSettled w p' then pool_release w p' else p'
  end.

Definition pool_run (p : Pool) (es : list PoolEvent) : Pool :=
  foldl pool_step p es.

(** ** The render module: [staticRender]

    Values that may throw are results; code that reads or writes state
    outside its arguments (the module registry reached by [require], the
    variables a hook module keeps between calls) runs in a small state and
    exception monad over [World]. *)

Inductive result (A : Type) :=
| Ok (a : A)
| Throw (error : string).
Arguments Ok {A} a.
Arguments Throw {A} error.

(** React elements as built by [React.createElement(type, props, child)]. *)
Inductive PropValue :=
| PString (s : string)
| PNumber (n : nat)
| PBool (b : bool)
| PJson (json : string)
| PLocationHook (path : string).

Inductive Props :=
| props_null
| props_object (fields : list (string * PropValue))
| props_value (json : string).

#[warnings="-register-all"]
Inductive ReactElement :=
| createElement (type : string) (props : Props) (children : list ReactElement).

(** The module-level variables of hook modules. *)
Definition Heap := gmap string nat.

(** [FastifyRendererHook] ([types.ts]): every member is optional. *)
Record FastifyRendererHook := {
  name : option string;
  tails : option (Heap → string * Heap);
  heads : option (Heap → string * Heap);
  transform : option (ReactElement → Heap → result ReactElement * Heap);
  postRenderHeads : option (Heap → string * Heap);
}.

Record World := {
  modules : gmap string FastifyRendererHook;
  heap : Heap;
  requireLog : list string;
}.

Definition M (A : Type) : Type := World → result A * World.

#[global] Instance M_ret : MRet M := fun A a w => (Ok a, w).

#[global] Instance M_bind : MBind M := fun A B k m w =>
  match m w with
  | (Ok a, w') => k a w'
  | (Throw e, w') => (Throw e, w')
  end.

Definition throw {A} (error : string) : M A := fun w => (Throw error, w).

Definition liftResult {A} (r : result A) : M A := fun w => (r, w).

(** [xs.map(f)] where [f] may throw and touches the world. *)
Fixpoint arrayMapM {A B} (f : A → M B) (xs : list A) : M (list B) :=
  match xs with
  | [] => mret []
  | x :: xs' => y ← f x; ys ← arrayMapM f xs'; mret (y :: ys)
  end.

(** [for (const x of xs) acc = f(acc, x)] *)
Fixpoint forOf {A B} (f : B → A → M B) (acc : B) (xs : list A) : M B :=
  match xs with
  | [] => mret acc
  | x :: xs' => acc' ← f acc x; forOf f acc' xs'
  end.

(** [require(path)]: the module registered under [path] at the time of the
    call; every call is recorded. *)
Definition require (path : string) : M FastifyRendererHook :=
  fun w =>
    let w' := {| modules := modules w; heap := heap w;
                 requireLog := requireLog w ++ [path] |} in
    match modules w !! path with
    | Some hook => (Ok hook, w')
    | None => (Throw ("Cannot find module " +:+ path), w')
    end.

(** [hook.transform(app)]: calling a member that is [undefined] throws. *)
Definition callTransform (app : ReactElement) (hook : FastifyRendererHook)
  : M ReactElement :=
  match transform hook with
  | None => throw "TypeError: hook.transform is not a function"
  | Some f =>
      fun w =>
        let '(r, h) := f app (heap w) in
        (r, {| modules := modules w; heap := h; requireLog := requireLog w |})
  end.

(** The server entrypoint module handed to the render: the components it
    exports and [ReactDOMServer.renderToString]. *)
Record ServerModule := {
  RenderBusContext_Provider : string;
  Router : string;
  Layout : string;
  Entrypoint : string;
  renderToString : ReactElement → result string;
}.

Inductive Mode := sync | streaming.

(** [RenderArgs extends RenderInput] *)
Record RenderArgs := {
  renderBase : string;
  destination : string;
  bootProps : string;
  hooks : list string;
  mode : Mode;
  module : ServerModule;
}.

Definition initialApp (args : RenderArgs) : ReactElement :=
  let m := module args in
  createElement (RenderBusContext_Provider m) props_null
    [ createElement (Router m)
        (props_object [ ("base", PString (renderBase args));
                        ("hook", PLocationHook (destination args)) ])
        [ createElement (Layout m)
            (props_object
               [ ("isNavigating", PBool false);
                 ("navigationDestination", PString (destination args));
                 ("bootProps", PJson (bootProps args)) ])
            [ createElement (Entrypoint m) (props_value (bootProps args)) [] ] ] ].

Definition staticRender (args : RenderArgs) : M string :=
  transformers ← arrayMapM require (hooks args);
  app ← forOf callTransform (initialApp args) transformers;
  liftResult (renderToString (module args) app).

(** The world once [paths] have been required and found: [require] only
    records the calls. *)
Definition required (paths : list string) (w : World) : World :=
  {| modules := modules w; heap := heap w;
     requireLog := requireLog w ++ paths |}.

(** The same render with another [ReactDOMServer.renderToString]. *)
Definition withRenderToString (render' : ReactElement → result string)
    (args : RenderArgs) : RenderArgs :=
  {| renderBase := renderBase args; destination := destination args;
     bootProps := bootProps args; hooks := hooks args; mode := mode args;
     module :=
       {| RenderBusContext_Provider := RenderBusContext_Provider (module args);
          Router := Router (module args);
          Layout := Layout (module args);
          Entrypoint := Entrypoint (module args);
          renderToString := render' |} |}.

(** Modelled from the spec: the sync-mode executor around [staticRender]
    (the code that turns the rendered string into stream events is not in
    the sources).  "invokes the opaque render capability once, producing a
    complete string; this string is pushed to content as a single chunk
    followed immediately by its end marker.  Errors from the render
    capability surface as an error event; no partial content is emitted." *)
Definition syncRender (args : RenderArgs) (w : World)
  : list StreamWorkerEvent * World :=
  match staticRender args w with
  | (Ok html, w') => ([chunkOf StackContent html; endOf StackContent], w')
  | (Throw e, w') => ([chunkOf StackError e], w')
  end.

(** The chunks and end markers an event sequence carries for one stack. *)
Definition eventsFor (s : Stack) (evs : list StreamWorkerEvent)
  : list (option string) :=
  content <$> filter (fun ev => stack ev = s) evs.

Definition chunksFor (s : Stack) (evs : list StreamWorkerEvent) : list string :=
  omap id (eventsFor s evs).

(** ** [scriptTag] ([Renderer.ts]) *)

Definition dquote : string := String (Ascii.ascii_of_nat 34) "".

(** [xs.join(sep)] *)
Fixpoint join (sep : string) (xs : list string) : string :=
  match xs with
  | [] => ""
  | [x] => x
  | x :: xs' => x +:+ sep +:+ join sep xs'
  end.

(** [Object.entries(attrs).filter(([, value]) => value !== undefined)
      .map(([key, value]) => `${key}="${value}"`).join(' ')] *)
Definition attrsString (attrs : list (string * option string)) : string :=
  join " "
    (omap (fun kv => match kv.2 with
                     | Some value => Some (kv.1 +:+ "=" +:+ dquote +:+ value +:+ dquote)
                     | None => None
                     end) attrs).

Definition scriptTag (content' : string) (attrs : list (string * option string))
  : string :=
  "<script type=" +:+ dquote +:+ "module" +:+ dquote +:+ " "
    +:+ attrsString attrs +:+ ">" +:+ content' +:+ "</script>".

(** ** Replies, [startRenderBus] and [wrappedRender] *)

(** What the document template was handed: it reads the three stacks of
    the bus lazily while the response streams. *)
Inductive Payload :=
| PayloadText (text : string)
| PayloadDocument (props : string).

(** The part of a [FastifyReply] the renderer and its callers act on. *)
Record Reply := {
  sent : bool;
  statusCode : nat;
  payload : option Payload;
}.

Definition reply_code (code : nat) (r : Reply) : Reply :=
  {| sent := sent r; statusCode := code; payload := payload r |}.

(** [reply.send(payload)]; a reply that was already sent is not sent
    again. *)
Definition reply_send (p : Payload) (r : Reply) : Reply :=
  if sent r then r
  else {| sent := true; statusCode := statusCode r; payload := Some p |}.

(** [Render<Props> extends RenderableRegistration]: the registration, the
    request's url, the reply, the props (as [JSON.stringify] prints them)
    and the nonces read from [reply.cspNonce]. *)
Record Render := {
  registration : RenderableRegistration;
  request_url : string;
  reply : Reply;
  props : string;
  styleNonce : option string;
  scriptNonce : option string;
}.

(** The plugin state [startRenderBus] reads.  [refreshRuntimePath] is
    [path.join(viteConfig.base, '@react-refresh')], [entrypointSrc] is
    [path.join(assetsHost, entrypointScriptTagSrcForClient(render))] and
    [importTags] is what [pushImportTagsFromManifest] pushes for the
    render's manifest entry. *)
Record PluginEnv := {
  devMode : bool;
  refreshRuntimePath : string;
  entrypointSrc : Render → string;
  importTags : Render → RenderBus;
}.

Definition newline : string := String (Ascii.ascii_of_nat 10) "".

Definition reactRefreshScriptTag (env : PluginEnv) (nonce : option string)
  : string :=
  scriptTag
    (newline
     +:+ "      import RefreshRuntime from " +:+ dquote
     +:+ refreshRuntimePath env +:+ dquote +:+ newline
     +:+ "      RefreshRuntime.injectIntoGlobalHook(window)" +:+ newline
     +:+ "      window.$RefreshReg$ = () => {}" +:+ newline
     +:+ "      window.$RefreshSig$ = () => (type) => type" +:+ newline
     +:+ "      window.__vite_plugin_react_preamble_installed__ = true")
    [("nonce", nonce)].

Definition startRenderBus (env : PluginEnv) (render : Render) : RenderBus :=
  let bus0 : RenderBus := [] in
  let bus1 :=
    if devMode env
    then bus_push StackTail
           (Some (reactRefreshScriptTag env (scriptNonce render))) bus0
    else bus0 in
  let bus2 :=
    bus_push StackTail
      (Some (scriptTag ("window.__FSTR_PROPS=" +:+ props render +:+ ";")
                       [("nonce", scriptNonce render)])) bus1 in
  if devMode env
  then bus_push StackTail
         (Some (scriptTag "" [("src", Some (entrypointSrc env render));
                              ("nonce", scriptNonce render)])) bus2
  else bus2 ++ importTags env render.

(** [wrappedRender], up to the point where the render itself is started:
    the bus is prepared, then the reply is sent with the document built
    over the (still pending) stacks. *)
Definition wrappedRender (env : PluginEnv) (render : Render)
  : Reply * RenderBus :=
  let bus0 := startRenderBus env render in
  let response := reply_send (PayloadDocument (props render)) (reply render) in
  (response, bus0).

(** Modelled from the spec: the route handler that the plugin wraps around
    a rendered route (it lives in [Plugin.ts], which is not in the
    sources).  "if an upstream collaborator (pre-processing hook or the
    handler supplying props) has already sent a response before the render
    phase begins, the pipeline must detect this and perform no bus activity
    at all".  The pre-processing hook runs first, then the handler that
    supplies the props, then the render phase, each only while the reply
    has not been sent. *)
Definition renderRoute (env : PluginEnv)
    (preHook : Reply → Reply)
    (handler : Reply → string * Reply)
    (render : Render) : Reply * RenderBus :=
  let r1 := preHook (reply render) in
  if sent r1 then (r1, [])
  else
    let '(props', r2) := handler r1 in
    if sent r2 then (r2, [])
    else wrappedRender env
           {| registration := registration render;
              request_url := request_url render;
              reply := r2;
              props := props';
              styleNonce := styleNonce render;
              scriptNonce := scriptNonce render |}.

(** ** The three classes of patterns, in the words of the specification

    A static pattern has no [":"] parameter token and no ["*"] wildcard
    token; a single-parameter pattern has a [":"] but no ["*"]; a wildcard
    pattern has a ["*"]. *)

Definition isStatic (pattern : string) : bool :=
  negb (includes pattern ":") && negb (includes pattern "*").

Definition isSingleParam (pattern : string) : bool :=
  includes pattern ":" && negb (includes pattern "*").

Definition isWildcard (pattern : string) : bool :=
  includes pattern "*".

(** A registration mounted at [pattern], as the declarative route calls
    create them. *)
Definition mounted (base' pattern renderable' : string) : RenderableRegistration :=
  {| layout := "Layout.tsx"; base := base'; pathPattern := Some pattern;
     renderable := renderable'; isImperative := false |}.

(** A registration made for imperative rendering: no [pathPattern]. *)
Definition imperative (base' renderable' : string) : RenderableRegistration :=
  {| layout := "Layout.tsx"; base := base'; pathPattern := None;
     renderable := renderable'; isImperative := true |}.

Definition routeScore (route : Routeable) : Z :=
  routeSortScore (route_pathPattern route).

(** A registration is excluded from a generated table when no row of the
    table was built from it. *)
Definition excludedFromTable (r : RenderableRegistration)
    (renderables : list RenderableRegistration) (base' : string)
    (imperativePathPattern imperativeRenderable : option string) : Prop :=
  ∀ route,
    route ∈ sortedRoutes renderables base' imperativePathPattern imperativeRenderable →
    route_fields route ≠ Some r.

(** The stacks whose end marker occurs in a sequence of events. *)
Definition endedStacks (evs : list StreamWorkerEvent) : gset Stack :=
  list_to_set (stack <$> filter (fun ev => content ev = None) evs).

Definition allStacks : gset Stack :=
  {[StackHead; StackTail; StackContent; StackError]}.

(** A render as [workerStreamRender] leaves it once the pool has run the
    callback: set seeded, promise pending, handler registered. *)
Definition dispatched (bus0 : RenderBus) : StreamRender :=
  worker_on (newStreamRender bus0).

(** What the pool guarantees at every moment, for a pool created with
    [size] workers: every worker is either idle or lent to exactly one
    render; a render that holds a worker still has a pending promise and
    its handler is registered on that worker; a render that waits for a
    worker still has a pending promise. *)
Definition pool_inv (size : nat) (p : Pool) : Prop :=
  idle p ++ (borrowed p).*1 ≡ₚ seq 0 size ∧
  NoDup (waiting p) ∧
  (∀ w j, (w, j) ∈ borrowed p →
     ∃ d, jobs p !! j = Some d ∧ d_worker d = Some w
          ∧ promise (d_render d) = Pending
          ∧ listening (d_render d) = true) ∧
  (∀ j, j ∈ waiting p →
     ∃ d, jobs p !! j = Some d ∧ d_worker d = None
          ∧ promise (d_render d) = Pending).

(** The stream ends render [j] still expects. *)
Definition expectedOf (p : Pool) (j : nat) : option (gset Stack) :=
  (expectedStreamEnds ∘ d_render) <$> jobs p !! j.

(** Worker [w] has been handed back between [p] and [p']: it went to the
    oldest render queued in [p] if there was one, and to the idle workers
    otherwise. *)
Definition handedBack (w : nat) (p p' : Pool) : Prop :=
  match waiting p with
  | j' :: queue =>
      idle p' = idle p ∧ (w, j') ∈ borrowed p' ∧ waiting p' = queue
  | [] =>
      idle p' = idle p ++ [w] ∧ waiting p' = []
  end.

(** ** Hooks and requests used to exercise the render

    The hook modules and routes of the test suite
    ([hooks/simpleHeadHooks.ts], [hooks/simpleTransformHook.ts],
    [hooks/thunkCounterHook.ts], the [/early-hook-reply] route) are inputs
    of the code above; their files are not in the sources. *)

(** Modelled from the spec: a hook that contributes "a heads() string
    appended to the head stack" and nothing else. *)
Definition headOnlyHook (markup : string) : FastifyRendererHook :=
  {| name := None; tails := None;
     heads := Some (fun h => (markup, h));
     transform := None; postRenderHeads := None |}.

(** Modelled from the spec: a hook whose "transform(tree) replaces the
    render tree": it wraps the tree in an element of its own. *)
Definition wrapWith (type : string) (app : ReactElement) : ReactElement :=
  createElement type props_null [app].

Definition transformHook (type : string) : FastifyRendererHook :=
  {| name := Some type; tails := None; heads := None;
     transform := Some (fun app h => (Ok (wrapWith type app), h));
     postRenderHeads := None |}.

(** Modelled from the spec: "hook state (e.g., a counter)": a hook module
    that keeps a counter in a module-level variable [key], puts its value
    in the tree and increments it. *)
Definition counterWrap (n : nat) (app : ReactElement) : ReactElement :=
  createElement "style" (props_object [("id", PNumber n)]) [app].

Definition counterHook (key : string) : FastifyRendererHook :=
  {| name := Some key; tails := None; heads := None;
     transform := Some (fun app h =>
       let n := default 0 (h !! key) in
       (Ok (counterWrap n app), <[key := S n]> h));
     postRenderHeads := None |}.

(** A server module whose [renderToString] prints with [show] and never
    throws. *)
Definition serverModule (show : ReactElement → string) : ServerModule :=
  {| RenderBusContext_Provider := "RenderBusContext.Provider";
     Router := "Router"; Layout := "Layout"; Entrypoint := "Entrypoint";
     renderToString := fun app => Ok (show app) |}.

(** Prints the element types from the root down, e.g. [<style><Router>]. *)
Fixpoint showTypes (app : ReactElement) : string :=
  match app with
  | createElement type _ children =>
      "<" +:+ type +:+ ">" +:+
      (fix go (cs : list ReactElement) : string :=
         match cs with
         | [] => ""
         | c :: cs' => showTypes c +:+ go cs'
         end) children
  end.

Definition renderArgs (hooks' : list string) : RenderArgs :=
  {| renderBase := ""; destination := "/render-test";
     bootProps := "{a:1,b:2}"; hooks := hooks'; mode := sync;
     module := serverModule showTypes |}.

Definition testWorld : World :=
  {| modules := {[ "simpleHeadHooks.ts" := headOnlyHook "<style></style>";
                   "thunkCounterHook.ts" := counterHook "thunkCounterHook.ts";
                   "simpleTransformHook.ts" := transformHook "TransformHook";
                   "outerHook.ts" := transformHook "Outer" ]};
     heap := ∅;
     requireLog := [] |}.

(** [reply.code(201).send('hello')], as the [/early-hook-reply] route's
    [preValidation] hook and the [/early-handler-reply] handler do. *)
Definition replyHello (r : Reply) : Reply :=
  reply_send (PayloadText "hello") (reply_code 201 r).

Definition freshReply : Reply :=
  {| sent := false; statusCode := 200; payload := None |}.

Definition testRender : Render :=
  {| registration := mounted "" "/early-hook-reply" "test-module.tsx";
     request_url := "/early-hook-reply";
     reply := freshReply;
     props := "";
     styleNonce := None;
     scriptNonce := None |}.

Definition testEnv : PluginEnv :=
  {| devMode := true;
     refreshRuntimePath := "/@react-refresh";
     entrypointSrc := fun _ => "/@fstr!entrypoint:/test-module.tsx/hydrate.jsx";
     importTags := fun _ => [] |}.

(** ** [staticLocationHook] (the render module)

    The router shim handed to [Router]: [hook()] returns [[path,
    navigate]] and [hook.history] starts as [[path]].  Both parameters
    have defaults ([path = '/'], [record = false]). *)

Record LocationHook := {
  hook_path : string;
  hook_record : bool;
  history : list string;
}.

Definition staticLocationHook (path : option string) (record : option bool)
  : LocationHook :=
  {| hook_path := default "/" path;
     hook_record := default false record;
     history := [default "/" path] |}.

(** [hook()[0]]: the location the router sees. *)
Definition useLocation (h : LocationHook) : string := hook_path h.

(** [navigate(to, { replace })]: [history.pop()] drops the last entry (and
    does nothing on an empty array), [history.push(to)] appends. *)
Definition navigate (to : string) (replace' : bool) (h : LocationHook)
  : LocationHook :=
  if hook_record h then
    {| hook_path := hook_path h;
       hook_record := hook_record h;
       history := (if replace' then removelast (history h) else history h)
                  ++ [to] |}
  else h.

Definition navigateAll (navs : list (string * bool)) (h : LocationHook)
  : LocationHook :=
  foldl (fun h nav => navigate nav.1 nav.2 h) h navs.

(** ** The worker's preload (top of the render module)

    [if (parentPort) { if (!workerData) throw ...; for (const path of
    paths) require(path) }].  A module object is seen through the hook
    interface, whatever it exports. *)
Definition preload (parentPort : bool) (workerData : option (list string))
  : M unit :=
  if parentPort then
    match workerData with
    | None => throw "No Worker Data"
    | Some paths => _ ← arrayMapM require paths; mret tt
    end
  else mret tt.

(** ** [stylesheetLinkTag] ([Renderer.ts]) *)

Definition stylesheetLinkTag (attrs : list (string * option string)) : string :=
  "<link rel=" +:+ dquote +:+ "stylesheet" +:+ dquote +:+ " "
    +:+ attrsString attrs +:+ ">".

(** ** Virtual module ids ([ReactRenderer.tsx])

    The three vite plugins of the renderer each serve the ids that start
    with their prefix. *)

Definition CLIENT_ENTRYPOINT_PREFIX : string := "/@fstr!entrypoint:".
Definition SERVER_ENTRYPOINT_PREFIX : string := "/@fstr!server-entrypoint:".
Definition ROUTE_TABLE_ID : string := "/@fstr!route-table.js".

(** [resolveId(id) { if (id.startsWith(prefix)) return id }] *)
Definition resolveId (prefix : string) (id : string) : option string :=
  if startsWith id prefix then Some id else None.

(** The line terminators that [.] does not match in a regular expression:
    LF, CR, U+2028 and U+2029 (the last two as their UTF-8 bytes). *)
Definition LF : string := String (Ascii.ascii_of_nat 10) "".
Definition CR : string := String (Ascii.ascii_of_nat 13) "".
Definition LS : string :=
  String (Ascii.ascii_of_nat 226)
    (String (Ascii.ascii_of_nat 128) (String (Ascii.ascii_of_nat 168) "")).
Definition PS : string :=
  String (Ascii.ascii_of_nat 226)
    (String (Ascii.ascii_of_nat 128) (String (Ascii.ascii_of_nat 169) "")).

Definition hasLineTerminator (s : string) : bool :=
  includes s LF || includes s CR || includes s LS || includes s PS.

(** [s.replace(/<marker>.+$/, '')] for a literal [marker]: the leftmost
    position at which [marker] is followed, up to the end of the string,
    by at least one character and no line terminator; the string is cut
    there.  Without such a position the string is returned unchanged. *)
Fixpoint stripFromMarker (marker s : string) : string :=
  let rest := slice s (String.length marker) in
  if startsWith s marker && negb (String.eqb rest "")
     && negb (hasLineTerminator rest)
  then ""
  else match s with
       | "" => ""
       | String c s' => String c (stripFromMarker marker s')
       end.

(** [serverEntrypointVitePlugin.load]: the module imported as
    [Entrypoint], [id.replace(SERVER_ENTRYPOINT_PREFIX, '')
    .replace(/\/ssr\.jsx\?.+$/, '')]; ids of other plugins are not
    loaded. *)
Definition serverEntrypointOf (id : string) : option string :=
  if startsWith id SERVER_ENTRYPOINT_PREFIX then
    Some (stripFromMarker "/ssr.jsx?" (replace id SERVER_ENTRYPOINT_PREFIX ""))
  else None.

(** [hydrationEntrypointVitePlugin.load]: the module imported as
    [Entrypoint], [id.replace(CLIENT_ENTRYPOINT_PREFIX, '/@fs/')
    .replace(/\/hydrate\.jsx\?.+$/, '')]. *)
Definition clientEntrypointOf (id : string) : option string :=
  if startsWith id CLIENT_ENTRYPOINT_PREFIX then
    Some (stripFromMarker "/hydrate.jsx?"
            (replace id CLIENT_ENTRYPOINT_PREFIX "/@fs/"))
  else None.

(** A string without its last character. *)
Fixpoint string_init (s : string) : string :=
  match s with
  | "" => ""
  | String c "" => ""
  | String c s' => String c (string_init s')
  end.

(** The events a dispatched render forwards to the bus: all of them up to
    and including the end marker that empties the set [open]. *)
Fixpoint forwarded (open : gset Stack) (evs : list StreamWorkerEvent)
  : list StreamWorkerEvent :=
  match evs with
  | [] => []
  | ev :: evs' =>
      match content ev with
      | None =>
          ev :: (if decide (open ∖ {[stack ev]} = ∅) then []
                 else forwarded (open ∖ {[stack ev]}) evs')
      | Some _ => ev :: forwarded open evs'
      end
  end.

Definition pushOf (ev : StreamWorkerEvent) : Stack * option string :=
  (stack ev, content ev).

(** ** The renderer's life cycle: [prepare], then renders

    [ReactRenderer] as an object: the plugin it reads, its options and the
    fields [prepare] assigns.  Node's [path.join] and
    [querystring.stringify], [mapFilepathToEntrypointName] of [utils.ts]
    and the two module loaders ([require] of a built file, the dev
    server's [ssrLoadModule]) are parameters. *)

#[global] Instance result_ret : MRet result := fun A a => Ok a.

#[global] Instance result_bind : MBind result := fun A B k r =>
  match r with
  | Ok a => k a
  | Throw e => Throw e
  end.

Module Lifecycle.
Section Renderer.

Variable path_join : list string → string.
Variable querystring_stringify : list (string * string) → string.
Variable mapFilepathToEntrypointName : string → string.
Variable requireBuilt : string → result unit.
Variable ssrLoadModule : string → result unit.

(** The members of [FastifyRendererPlugin] the server side of the
    renderer reads. *)
Record FastifyRendererPlugin := {
  devMode : bool;
  serverOutDir : string;
  serverEntrypointManifest : option (gmap string string);
  hooks : list string;
}.

(** The pool as [prepare] configures it: [createPool({ create, dispose },
    os.cpus().length)], every worker created with [workerData = { paths
    }]. *)
Record WorkerPool := {
  pool_size : nat;
  pool_paths : list string;
}.

Record ReactRenderer := {
  plugin : FastifyRendererPlugin;
  options_mode : Mode;
  renderables : list RenderableRegistration;
  hookPaths : list string;
  workerPool : option WorkerPool;
}.

(** [new ReactRenderer(plugin, options)]: [workerPool = null],
    [hookPaths = []]. *)
Definition newReactRenderer (plugin' : FastifyRendererPlugin) (mode' : Mode)
  : ReactRenderer :=
  {| plugin := plugin'; options_mode := mode'; renderables := [];
     hookPaths := []; workerPool := None |}.

Definition buildVirtualServerEntrypointModuleID
    (register : RenderableRegistration) : string :=
  path_join [SERVER_ENTRYPOINT_PREFIX; renderable register; "ssr.jsx"]
  +:+ "?"
  +:+ querystring_stringify [("layout", layout register);
                             ("base", base register)].

Definition notInManifest (register : RenderableRegistration)
    (entrypointName : string) : string :=
  "Module id " +:+ renderable register
  +:+ " was not found in the built server entrypoints manifest."
  +:+ " Looked for it at " +:+ entrypointName
  +:+ " in virtual-manifest.json. Was it included in the build?".

(** [if (!manifestEntry) throw ...]: an entry that is the empty string is
    treated like a missing one. *)
Definition entrypointRequirePathForServer (this : ReactRenderer)
    (register : RenderableRegistration) : result string :=
  let entrypointName := buildVirtualServerEntrypointModuleID register in
  if devMode (plugin this) then Ok entrypointName
  else
    match serverEntrypointManifest (plugin this) with
    | None =>
        Throw "TypeError: Cannot read properties of undefined"
    | Some manifest =>
        if truthy (manifest !! entrypointName)
        then Ok (default "" (manifest !! entrypointName))
        else Throw (notInManifest register entrypointName)
    end.

Definition builtPath (this : ReactRenderer) (id : string) : string :=
  path_join [serverOutDir (plugin this); mapFilepathToEntrypointName id].

Definition loadModule (this : ReactRenderer) (id : string) : result unit :=
  if devMode (plugin this) then ssrLoadModule id
  else requireBuilt (builtPath this id).

Definition getPreloadPaths (this : ReactRenderer) : result (list string) :=
  mapM (fun renderable' =>
          id ← entrypointRequirePathForServer this renderable';
          mret (builtPath this id))
       (renderables this).

(** [for (const renderable of renderables) await
    this.loadModule(this.entrypointRequirePathForServer(renderable))] *)
Fixpoint loadAll (this : ReactRenderer)
    (renderables' : list RenderableRegistration) : result unit :=
  match renderables' with
  | [] => Ok tt
  | renderable' :: rest =>
      id ← entrypointRequirePathForServer this renderable';
      _ ← loadModule this id;
      loadAll this rest
  end.

(** [prepare(renderables, viteConfig, devServer)] on a host with [cpus]
    processors.  The fields assigned before a throw stay assigned; the
    call of [createPool] itself is taken to return. *)
Definition prepare (renderables' : list RenderableRegistration) (cpus : nat)
    (this : ReactRenderer) : result unit * ReactRenderer :=
  let this1 :=
    {| plugin := plugin this; options_mode := options_mode this;
       renderables := renderables';
       hookPaths := hooks (plugin this);
       workerPool := workerPool this |} in
  if devMode (plugin this) then (Ok tt, this1)
  else
    match loadAll this1 renderables' with
    | Throw e => (Throw e, this1)
    | Ok _ =>
        match getPreloadPaths this1 with
        | Throw e => (Throw e, this1)
        | Ok modulePaths =>
            (Ok tt,
             {| plugin := plugin this1; options_mode := options_mode this1;
                renderables := renderables this1;
                hookPaths := hookPaths this1;
                workerPool :=
                  Some {| pool_size := cpus;
                          pool_paths := modulePaths ++ hookPaths this1 |} |})
        end
    end.

(** [WorkerRenderInput] ([types.ts]), the message posted to the worker. *)
Record WorkerRenderInput := {
  msg_modulePath : string;
  msg_renderBase : string;
  msg_bootProps : string;
  msg_destination : string;
  msg_hooks : list string;
  msg_mode : Mode;
}.

(** [workerStreamRender], from its first line to the message it posts:
    the manifest lookup, then [stripBasePath], then the check that the
    pool exists. *)
Definition workerRenderInput (this : ReactRenderer) (render : Render)
  : result WorkerRenderInput :=
  requirePath ← entrypointRequirePathForServer this (registration render);
  let destination' :=
    stripBasePath (request_url render) (base (registration render)) in
  match workerPool this with
  | None => Throw "WorkerPool not setup"
  | Some _ =>
      Ok {| msg_modulePath := builtPath this requirePath;
            msg_renderBase := base (registration render);
            msg_bootProps := props render;
            msg_destination := destination';
            msg_hooks := hookPaths this;
            msg_mode := options_mode this |}
  end.

(** A registration resolves when its manifest lookup succeeds and the
    module it names loads. *)
Definition resolves (this : ReactRenderer) (register : RenderableRegistration)
  : Prop :=
  ∃ id, entrypointRequirePathForServer this register = Ok id
        ∧ loadModule this id = Ok tt.

End Renderer.
End Lifecycle.

(** ** A renderer to run the life cycle on

    Stand-ins for the library functions: paths are joined with ["/"], a
    query is printed as [key=value] pairs joined with ["&"], built files
    keep their name and every load succeeds. *)

Definition examplePathJoin (parts : list string) : string := join "/" parts.

Definition exampleStringify (params : list (string * string)) : string :=
  join "&" ((fun kv => kv.1 +:+ "=" +:+ kv.2) <$> params).

Definition exampleLoad (path : string) : result unit := Ok tt.

Definition homeView : RenderableRegistration :=
  mounted "" "/" "Home.tsx".

Definition aboutView : RenderableRegistration :=
  mounted "" "/about" "About.tsx".

Definition examplePlugin (devMode' : bool) : Lifecycle.FastifyRendererPlugin :=
  {| Lifecycle.devMode := devMode';
     Lifecycle.serverOutDir := "/dist/server";
     Lifecycle.serverEntrypointManifest :=
       Some {[ Lifecycle.buildVirtualServerEntrypointModuleID
                 examplePathJoin exampleStringify homeView
               := "entries/home.js" ]};
     Lifecycle.hooks := ["hook.ts"] |}.

Definition exampleRender : Render :=
  {| registration := homeView;
     request_url := "/";
     reply := freshReply;
     props := "{}";
     styleNonce := None;
     scriptNonce := None |}.

(** A transform that only rebuilds the tree: it does not throw and does
    not touch the hooks' variables. *)
Definition pureTransform (hook : FastifyRendererHook)
    (f : ReactElement → ReactElement) : Prop :=
  transform hook = Some (fun app h => (Ok (f app), h)).

(** * Properties *)

(** ** Strings *)

Lemma string_app_nil_l (s : string) : "" +:+ s = s.
Proof. reflexivity. Qed.

Lemma string_app_cons (c : Ascii.ascii) (a b : string) :
  String c a +:+ b = String c (a +:+ b).
Proof. reflexivity. Qed.

Lemma string_app_nil_r (s : string) : s +:+ "" = s.
Proof.
  induction s as [|c s IH]; [done |].
  by rewrite string_app_cons, IH.
Qed.

Lemma string_app_assoc (a b c : string) : a +:+ (b +:+ c) = (a +:+ b) +:+ c.
Proof.
  induction a as [|x a IH]; [done |].
  by rewrite !string_app_cons, IH.
Qed.

Lemma string_length_app (a b : string) :
  String.length (a +:+ b) = String.length a + String.length b.
Proof.
  induction a as [|x a IH]; [done |].
  rewrite string_app_cons. simpl. by rewrite IH.
Qed.

Lemma startsWith_app (b rest : string) : startsWith (b +:+ rest) b = true.
Proof.
  induction b as [|c b IH]; [done |].
  rewrite string_app_cons. simpl. by rewrite decide_True.
Qed.

Lemma string_slice_app (b rest : string) : slice (b +:+ rest) (String.length b) = rest.
Proof.
  induction b as [|c b IH]; [reflexivity |].
  rewrite string_app_cons. simpl. done.
Qed.

Lemma startsWith_split (s b : string) :
  startsWith s b = true → s = b +:+ slice s (String.length b).
Proof.
  revert s. induction b as [|cb b IH]; intros s H; [done |].
  simpl in H. destruct s as [|cs s]; [done |].
  case_decide; [subst | done].
  rewrite string_app_cons. simpl. f_equal. by apply IH.
Qed.

Lemma startsWith_iff (s b : string) :
  startsWith s b = true ↔ ∃ rest, s = b +:+ rest.
Proof.
  split.
  - intros H. eexists. by apply startsWith_split.
  - intros [rest ->]. apply startsWith_app.
Qed.

Lemma startsWith_self (s : string) : startsWith s s = true.
Proof. rewrite <- (string_app_nil_r s) at 1. apply startsWith_app. Qed.

Lemma string_slice_all (s : string) : slice s (String.length s) = "".
Proof. induction s as [|c s IH]; simpl; done. Qed.

Lemma includes_nil (needle : string) :
  includes "" needle = true → needle = "".
Proof. destruct needle; simpl; [done | discriminate]. Qed.

Lemma includes_cons_false (c : Ascii.ascii) (s needle : string) :
  includes (String c s) needle = false →
  startsWith (String c s) needle = false ∧ includes s needle = false.
Proof. simpl includes. intros H. by apply orb_false_iff in H. Qed.

(** Replacing after a prefix that does not contain the pattern. *)
Lemma replace_skip (pre s : string) (c : Ascii.ascii) (repl : string) :
  includes pre (String c "") = false →
  replace (pre +:+ s) (String c "") repl = pre +:+ replace s (String c "") repl.
Proof.
  induction pre as [|x pre IH]; intros H; [done |].
  apply includes_cons_false in H as [Hx Hpre].
  rewrite !string_app_cons. cbn [replace]. simpl startsWith in *.
  destruct (decide (x = c)) as [->|Hne]; [done |].
  f_equal. by apply IH.
Qed.

Lemma replace_absent (s : string) (c : Ascii.ascii) (repl : string) :
  includes s (String c "") = false → replace s (String c "") repl = s.
Proof.
  intros H. rewrite <- (string_app_nil_r s) at 1.
  rewrite replace_skip by done. apply string_app_nil_r.
Qed.

Lemma eqb_empty_false (s : string) : s ≠ "" → String.eqb s "" = false.
Proof. intros H. by apply String.eqb_neq. Qed.

(** ** [stripBasePath] *)

(** C9.  [stripBasePath p b] is ["/"] when [p] equals [b]; it is [p]
    without its leading [b] when [p] starts with [b] and is longer than
    [b]; and it is [p] itself when [p] does not start with [b]. *)
Theorem stripBasePath_spec (p b : string) :
  (p = b → stripBasePath p b = "/") ∧
  (startsWith p b = true → String.length b < String.length p →
     ∃ rest, p = b +:+ rest ∧ rest ≠ "" ∧ stripBasePath p b = rest) ∧
  (startsWith p b = false → stripBasePath p b = p).
Proof.
  unfold stripBasePath. split; [|split].
  - intros ->. by rewrite startsWith_self, string_slice_all.
  - intros Hpre Hlen. rewrite Hpre.
    pose proof (startsWith_split _ _ Hpre) as Hsplit.
    set (rest := slice p (String.length b)) in *.
    assert (rest ≠ "") as Hne.
    { intros Hrest. rewrite Hrest, string_app_nil_r in Hsplit.
      rewrite Hsplit in Hlen. lia. }
    exists rest. by rewrite (eqb_empty_false _ Hne).
  - by intros ->.
Qed.

Lemma stripBasePath_spec_witness :
  stripBasePath "/app" "/app" = "/" ∧
  (∃ rest, "/app/about" = "/app" +:+ rest ∧ rest ≠ ""
           ∧ stripBasePath "/app/about" "/app" = rest) ∧
  stripBasePath "/other" "/app" = "/other".
Proof.
  split; [|split].
  - apply (stripBasePath_spec "/app" "/app"). reflexivity.
  - apply (stripBasePath_spec "/app/about" "/app"); [reflexivity | simpl; lia].
  - apply (stripBasePath_spec "/other" "/app"). reflexivity.
Defined.

(** ** [pathToRegexpify] *)

Lemma includes_split (s : string) (c : Ascii.ascii) :
  includes s (String c "") = true →
  ∃ pre post, s = pre +:+ String c post ∧ includes pre (String c "") = false.
Proof.
  induction s as [|x s IH]; [done |].
  simpl. destruct (decide (x = c)) as [->|Hne].
  - intros _. by exists "", s.
  - simpl. intros H. destruct (IH H) as (pre & post & -> & Hpre).
    exists (String x pre), post. split; [done |].
    simpl. by rewrite decide_False, Hpre.
Qed.

(** C10.  [pathToRegexpify] rewrites only the first ["*"] of a pattern to
    [":splat*"]: whatever follows the first ["*"], further ["*"] included,
    is copied unchanged.  Every pattern with a ["*"] splits at its first
    ["*"] in this way, and a pattern without ["*"] is returned as it is. *)
Theorem pathToRegexpify_first_only (path : string) :
  (includes path "*" = false → pathToRegexpify path = path) ∧
  (∀ pre post, path = pre +:+ "*" +:+ post → includes pre "*" = false →
     pathToRegexpify path = pre +:+ ":splat*" +:+ post) ∧
  (includes path "*" = true →
     ∃ pre post, path = pre +:+ "*" +:+ post ∧ includes pre "*" = false).
Proof.
  unfold pathToRegexpify. split; [|split].
  - by apply replace_absent.
  - intros pre post -> Hpre. by rewrite replace_skip.
  - intros H. destruct (includes_split _ _ H) as (pre & post & -> & Hpre).
    by exists pre, post.
Qed.

Lemma pathToRegexpify_first_only_witness :
  pathToRegexpify "/files/*/raw/*" = "/files/:splat*/raw/*"
  ∧ pathToRegexpify "/files/" = "/files/".
Proof.
  split.
  - destruct (pathToRegexpify_first_only "/files/*/raw/*") as (_ & H & _).
    apply (H "/files/" "/raw/*"); reflexivity.
  - apply (pathToRegexpify_first_only "/files/"). reflexivity.
Defined.

(** ** [Array.prototype.sort] by a score *)

Section SortByScore.
Context {A : Type} (score : A → Z).

Let cmp (a b : A) : Z := (score a - score b)%Z.

Lemma sort_insert_perm (x : A) (l : list A) : sort_insert cmp x l ≡ₚ x :: l.
Proof.
  induction l as [|y l IH]; simpl; [done |].
  destruct (0 <? cmp x y)%Z; [|done].
  rewrite IH. apply perm_swap.
Qed.

Lemma Array_sort_perm (l : list A) : Array_sort cmp l ≡ₚ l.
Proof.
  induction l as [|x l IH]; simpl; [done |].
  by rewrite sort_insert_perm, IH.
Qed.

Lemma sort_insert_sorted (x : A) (l : list A) :
  StronglySorted (fun a b => (score a ≤ score b)%Z) l →
  StronglySorted (fun a b => (score a ≤ score b)%Z) (sort_insert cmp x l).
Proof.
  induction 1 as [|y l Hl IH Hy]; simpl.
  - repeat constructor.
  - destruct (0 <? cmp x y)%Z eqn:Hc.
    + apply Z.ltb_lt in Hc. unfold cmp in Hc.
      constructor; [done |].
      rewrite sort_insert_perm. constructor; [lia | done].
    + apply Z.ltb_ge in Hc. unfold cmp in Hc.
      constructor; [by constructor |].
      constructor; [lia |].
      eapply Forall_impl; [exact Hy |]. simpl. intros z Hz. lia.
Qed.

Lemma Array_sort_sorted (l : list A) :
  StronglySorted (fun a b => (score a ≤ score b)%Z) (Array_sort cmp l).
Proof.
  induction l as [|x l IH]; simpl; [constructor |].
  by apply sort_insert_sorted.
Qed.

(** Stability: the elements of one score keep their relative order. *)
Lemma sort_insert_stable (k : Z) (x : A) (l : list A) :
  filter (fun a => score a = k) (sort_insert cmp x l)
  = filter (fun a => score a = k) (x :: l).
Proof.
  induction l as [|y l IH]; simpl; [done |].
  destruct (0 <? cmp x y)%Z eqn:Hc; [|done].
  apply Z.ltb_lt in Hc. unfold cmp in Hc.
  rewrite (filter_cons _ y), IH, !filter_cons.
  repeat case_decide; try done; lia.
Qed.

Lemma Array_sort_stable (k : Z) (l : list A) :
  filter (fun a => score a = k) (Array_sort cmp l)
  = filter (fun a => score a = k) l.
Proof.
  induction l as [|x l IH]; simpl; [done |].
  by rewrite sort_insert_stable, !filter_cons, IH.
Qed.

Lemma sorted_lookup_le (l : list A) (i j : nat) (a b : A) :
  StronglySorted (fun a b => (score a ≤ score b)%Z) l →
  i < j → l !! i = Some a → l !! j = Some b → (score a ≤ score b)%Z.
Proof.
  intros Hs. revert i j. induction Hs as [|x l Hl IH Hx]; intros i j Hij Hi Hj.
  - done.
  - destruct j as [|j]; [lia |]. simpl in Hj.
    destruct i as [|i]; simpl in Hi.
    + injection Hi as ->. rewrite Forall_forall in Hx.
      apply Hx. by eapply list_elem_of_lookup_2.
    + apply (IH i j); [lia | done | done].
Qed.

(** In a sorted array an element of smaller score comes first. *)
Lemma sorted_lookup_lt (l : list A) (i j : nat) (a b : A) :
  StronglySorted (fun a b => (score a ≤ score b)%Z) l →
  l !! i = Some a → l !! j = Some b → (score a < score b)%Z → i < j.
Proof.
  intros Hs Hi Hj Hlt.
  destruct (decide (i < j)) as [|Hge]; [done |].
  destruct (decide (i = j)) as [->|Hne].
  - rewrite Hi in Hj. injection Hj as ->. lia.
  - pose proof (sorted_lookup_le l j i b a Hs ltac:(lia) Hj Hi). lia.
Qed.

End SortByScore.

(** ** The route table *)

Lemma routeSortScore_class (p : string) :
  (isStatic p = true ↔ routeSortScore p = 0%Z) ∧
  (isSingleParam p = true ↔ routeSortScore p = 1%Z) ∧
  (isWildcard p = true ↔ routeSortScore p = 2%Z).
Proof.
  unfold isStatic, isSingleParam, isWildcard, routeSortScore.
  destruct (includes p "*"), (includes p ":"); simpl; naive_solver.
Qed.

Lemma sortedRoutes_perm renderables base' ipp ir :
  sortedRoutes renderables base' ipp ir
  ≡ₚ routeableRenderables renderables base' ipp ir.
Proof. apply (Array_sort_perm routeScore). Qed.

Lemma sortedRoutes_sorted renderables base' ipp ir :
  StronglySorted (fun a b => (routeScore a ≤ routeScore b)%Z)
    (sortedRoutes renderables base' ipp ir).
Proof. apply (Array_sort_sorted routeScore). Qed.

Lemma sortedRoutes_stable (k : Z) renderables base' ipp ir :
  filter (fun r => routeScore r = k) (sortedRoutes renderables base' ipp ir)
  = filter (fun r => routeScore r = k)
      (routeableRenderables renderables base' ipp ir).
Proof. apply (Array_sort_stable routeScore). Qed.

Lemma filter_class_score (class : string → bool) (k : Z) (l : list Routeable) :
  (∀ p, class p = true ↔ routeSortScore p = k) →
  filter (fun r => class (route_pathPattern r) = true) l
  = filter (fun r => routeScore r = k) l.
Proof.
  intros Hclass. apply list_filter_iff. intros r. apply Hclass.
Qed.

(** C2.  The rows of the generated route table are the registered routes
    sorted so that every static pattern comes before every
    single-parameter pattern, which comes before every wildcard pattern;
    the routes of one class keep their registration order.  Registering
    [/a], [/:id], [/*] gives the order [/a], [/:id], [/*], also when they
    are registered the other way round. *)
Theorem route_table_order (renderables : list RenderableRegistration)
    (base' : string) (ipp ir : option string) :
  let registered := routeableRenderables renderables base' ipp ir in
  let routes := sortedRoutes renderables base' ipp ir in
  pathsToModules renderables base' ipp ir = tableEntry base' <$> routes ∧
  routes ≡ₚ registered ∧
  (∀ i j a b,
     routes !! i = Some a → routes !! j = Some b →
     (isStatic (route_pathPattern a) = true
        ∧ isSingleParam (route_pathPattern b) = true) ∨
     (isSingleParam (route_pathPattern a) = true
        ∧ isWildcard (route_pathPattern b) = true) ∨
     (isStatic (route_pathPattern a) = true
        ∧ isWildcard (route_pathPattern b) = true) →
     i < j) ∧
  (∀ class, class ∈ [isStatic; isSingleParam; isWildcard] →
     filter (fun r => class (route_pathPattern r) = true) routes
     = filter (fun r => class (route_pathPattern r) = true) registered) ∧
  route_pathPattern <$>
    sortedRoutes [mounted "" "/a" "A.tsx"; mounted "" "/:id" "Id.tsx";
                  mounted "" "/*" "Any.tsx"] "" None None
  = ["/a"; "/:id"; "/*"] ∧
  route_pathPattern <$>
    sortedRoutes [mounted "" "/*" "Any.tsx"; mounted "" "/:id" "Id.tsx";
                  mounted "" "/a" "A.tsx"] "" None None
  = ["/a"; "/:id"; "/*"].
Proof.
  intros registered routes. split; [done |].
  split; [apply sortedRoutes_perm |].
  split; [|split; [|split; reflexivity]].
  - intros i j a b Hi Hj Hclass.
    apply (sorted_lookup_lt routeScore routes i j a b);
      [apply sortedRoutes_sorted | done | done |].
    unfold routeScore.
    destruct (routeSortScore_class (route_pathPattern a)) as (Ha0 & Ha1 & _).
    destruct (routeSortScore_class (route_pathPattern b)) as (_ & Hb1 & Hb2).
    destruct Hclass as [[Ha Hb]|[[Ha Hb]|[Ha Hb]]].
    + apply Ha0 in Ha. apply Hb1 in Hb. lia.
    + apply Ha1 in Ha. apply Hb2 in Hb. lia.
    + apply Ha0 in Ha. apply Hb2 in Hb. lia.
  - intros class Hin.
    assert (∃ k, ∀ p, class p = true ↔ routeSortScore p = k) as [k Hk].
    { rewrite !elem_of_cons in Hin.
      destruct Hin as [->|[->|[->|Hin]]]; [| | |by apply elem_of_nil in Hin].
      - exists 0%Z. intros p. apply routeSortScore_class.
      - exists 1%Z. intros p. apply routeSortScore_class.
      - exists 2%Z. intros p. apply routeSortScore_class. }
    rewrite !(filter_class_score class k) by done.
    apply sortedRoutes_stable.
Qed.

Lemma route_table_order_witness :
  sortedRoutes [mounted "" "/*" "Any.tsx"; mounted "" "/a" "A.tsx"]
               "" None None !! 0
    = Some {| route_pathPattern := "/a";
              route_fields := Some (mounted "" "/a" "A.tsx") |} ∧
  sortedRoutes [mounted "" "/*" "Any.tsx"; mounted "" "/a" "A.tsx"]
               "" None None !! 1
    = Some {| route_pathPattern := "/*";
              route_fields := Some (mounted "" "/*" "Any.tsx") |} ∧
  0 < 1.
Proof.
  split; [reflexivity |]. split; [reflexivity |].
  destruct (route_table_order
              [mounted "" "/*" "Any.tsx"; mounted "" "/a" "A.tsx"]
              "" None None) as (_ & _ & Horder & _).
  eapply (Horder 0 1); [reflexivity | reflexivity |].
  right. right. split; reflexivity.
Defined.

Lemma elem_of_filterRouteable renderables base' route :
  route ∈ filterRouteable renderables base' →
  ∃ r, r ∈ renderables ∧ base r = base'
       ∧ pathPattern r = Some (route_pathPattern route)
       ∧ route_fields route = Some r.
Proof.
  unfold filterRouteable. rewrite list_elem_of_omap.
  intros (r & Hr & Hroute). exists r. split; [done |].
  unfold routeableOf in Hroute.
  destruct (String.eqb (base r) base') eqn:Hbase; [|done].
  apply String.eqb_eq in Hbase.
  destruct (pathPattern r) as [p|] eqn:Hp; [|done].
  by injection Hroute as <-.
Qed.

Lemma findRenderable_Some renderables ir r :
  findRenderable renderables ir = Some r →
  r ∈ renderables ∧ renderable r = ir.
Proof.
  unfold findRenderable. intros H. apply find_some in H as [Hin Heq].
  split; [by apply list_elem_of_In | by apply String.eqb_eq].
Qed.

Lemma elem_of_routeableRenderables renderables base' ipp ir route :
  route ∈ routeableRenderables renderables base' ipp ir →
  route ∈ filterRouteable renderables base' ∨
  (truthy ipp = true ∧ truthy ir = true
   ∧ ipp = Some (route_pathPattern route)
   ∧ ∃ ir', ir = Some ir' ∧ route_fields route = findRenderable renderables ir').
Proof.
  unfold routeableRenderables.
  destruct ipp as [ipp'|], ir as [ir'|]; try (by left).
  destruct (truthy (Some ipp') && truthy (Some ir')) eqn:Ht; [|by left].
  apply andb_true_iff in Ht as [Hipp Hir].
  rewrite elem_of_app, list_elem_of_singleton.
  intros [H | ->]; [by left | right].
  repeat split; try done. by exists ir'.
Qed.

(** C8, as stated, does not hold: the table requested for an imperative
    render (both [imperativePathPattern] and [imperativeRenderable] set)
    has a row for a registration that has no [pathPattern]. *)
Lemma imperative_in_table_counterexample :
  pathPattern (imperative "" "Modal.tsx") = None ∧
  pathsToModules [imperative "" "Modal.tsx"] ""
                 (Some "/modal") (Some "Modal.tsx")
    = [("/modal", Some "Modal.tsx")] ∧
  ¬ excludedFromTable (imperative "" "Modal.tsx")
      [imperative "" "Modal.tsx"] "" (Some "/modal") (Some "Modal.tsx").
Proof.
  split; [reflexivity |]. split; [reflexivity |].
  intros Hex.
  apply (Hex {| route_pathPattern := "/modal";
                route_fields := Some (imperative "" "Modal.tsx") |});
    [|reflexivity].
  apply list_elem_of_singleton. reflexivity.
Qed.

(** C8, amended.  A registration without [pathPattern] is never taken
    into the route table by the filter over the registrations: for every
    base path it has a row only in a table requested with both
    [imperativePathPattern] and [imperativeRenderable] non-empty and
    [imperativeRenderable] equal to its [renderable], and that row carries
    the requested pattern; in every other table it is excluded.  In a
    table so requested the first registration whose [renderable] is the
    requested one does get a row, under the requested pattern. *)
Theorem imperative_only_on_request
    (renderables : list RenderableRegistration) (base' : string)
    (ipp ir : option string) (r : RenderableRegistration) :
  pathPattern r = None →
  (∀ route,
     route ∈ sortedRoutes renderables base' ipp ir →
     route_fields route = Some r →
     truthy ipp = true ∧ truthy ir = true
     ∧ ipp = Some (route_pathPattern route) ∧ ir = Some (renderable r)) ∧
  (truthy ipp = false ∨ truthy ir = false ∨ ir ≠ Some (renderable r) →
   excludedFromTable r renderables base' ipp ir) ∧
  (∀ ipp' ir',
     ipp = Some ipp' → ir = Some ir' → ipp' ≠ "" → ir' ≠ "" →
     findRenderable renderables ir' = Some r →
     {| route_pathPattern := ipp'; route_fields := Some r |}
       ∈ sortedRoutes renderables base' ipp ir).
Proof.
  intros Hnone.
  assert (∀ route,
     route ∈ sortedRoutes renderables base' ipp ir →
     route_fields route = Some r →
     truthy ipp = true ∧ truthy ir = true
     ∧ ipp = Some (route_pathPattern route) ∧ ir = Some (renderable r)) as Hrow.
  { intros route Hin Hfields.
    rewrite sortedRoutes_perm in Hin.
    apply elem_of_routeableRenderables in Hin as [Hin | Himp].
    - apply elem_of_filterRouteable in Hin as (r' & _ & _ & Hp & Hr').
      rewrite Hfields in Hr'. injection Hr' as <-. congruence.
    - destruct Himp as (Hipp & Hir & Hpat & ir' & -> & Hfind).
      rewrite Hfields in Hfind. symmetry in Hfind.
      apply findRenderable_Some in Hfind as [_ <-]. done. }
  split; [exact Hrow |]. split.
  - intros Hno route Hin Hfields.
    destruct (Hrow route Hin Hfields) as (Hipp & Hir & _ & Hname).
    destruct Hno as [Hno | [Hno | Hno]]; congruence.
  - intros ipp' ir' -> -> Hipp Hir Hfind.
    rewrite sortedRoutes_perm. unfold routeableRenderables, truthy.
    rewrite !eqb_empty_false by done. simpl. rewrite Hfind.
    apply elem_of_app. right. by apply list_elem_of_singleton.
Qed.

Lemma imperative_only_on_request_witness :
  excludedFromTable (imperative "" "Modal.tsx")
    [mounted "" "/a" "A.tsx"; imperative "" "Modal.tsx"] "" None None.
Proof.
  apply (imperative_only_on_request
           [mounted "" "/a" "A.tsx"; imperative "" "Modal.tsx"] "" None None
           (imperative "" "Modal.tsx")); [reflexivity |].
  left. reflexivity.
Defined.

(** ** [workerStreamRender]: the message handler *)

Lemma gset_size_zero (X : gset Stack) : size X = 0 ↔ X = ∅.
Proof. rewrite size_empty_iff. apply leibniz_equiv_iff. Qed.

Lemma isErrorEvent_true (ev : StreamWorkerEvent) :
  isErrorEvent ev = true ↔
  stack ev = StackError ∧ ∃ c, content ev = Some c ∧ c ≠ "".
Proof.
  unfold isErrorEvent, truthy.
  rewrite andb_true_iff, bool_decide_eq_true.
  split.
  - intros [Hs Hc]. split; [done |].
    destruct (content ev) as [c|]; [|done].
    exists c. split; [done |].
    apply negb_true_iff in Hc. by apply String.eqb_neq.
  - intros [Hs (c & -> & Hc)]. split; [done |].
    apply negb_true_iff. by apply String.eqb_neq.
Qed.

Lemma messageHandler_expected (ev : StreamWorkerEvent) (r : StreamRender) :
  expectedStreamEnds (messageHandler ev r)
  = match content ev with
    | None => expectedStreamEnds r ∖ {[stack ev]}
    | Some _ => expectedStreamEnds r
    end.
Proof.
  unfold messageHandler. destruct (content ev); [done |].
  case_bool_decide as Hsize; simpl; [|done].
  symmetry. by apply gset_size_zero.
Qed.

Lemma messageHandler_listening (ev : StreamWorkerEvent) (r : StreamRender) :
  listening (messageHandler ev r)
  = if decide (expectedStreamEnds (messageHandler ev r) = ∅
               ∧ content ev = None)
    then false else listening r.
Proof.
  rewrite messageHandler_expected.
  unfold messageHandler. destruct (content ev) as [c|].
  - destruct (decide _) as [Hd|Hd]; [by destruct Hd | done].
  - case_bool_decide as Hsize; case_decide as Hd; simpl; try done.
    + exfalso. apply Hd. split; [by apply gset_size_zero | done].
    + destruct Hd as [He _]. by apply gset_size_zero in He.
Qed.

Lemma messageHandler_promise (ev : StreamWorkerEvent) (r : StreamRender) :
  promise r = Pending →
  promise (messageHandler ev r)
  = if isErrorEvent ev then Rejected (default "" (content ev))
    else if decide (content ev = None
                    ∧ expectedStreamEnds r ∖ {[stack ev]} = ∅)
         then Fulfilled else Pending.
Proof.
  intros Hp. unfold messageHandler. rewrite Hp.
  destruct (isErrorEvent ev) eqn:Herr.
  - apply isErrorEvent_true in Herr as [_ (c & Hc & _)]. by rewrite Hc.
  - destruct (content ev) as [c|].
    + destruct (decide _) as [Hd|Hd]; [by destruct Hd | done].
    + case_bool_decide as Hsize; case_decide as Hd; simpl; try done.
      * exfalso. apply Hd. split; [done | by apply gset_size_zero].
      * destruct Hd as [_ He]. by apply gset_size_zero in He.
Qed.

Lemma messageHandler_settled (ev : StreamWorkerEvent) (r : StreamRender) :
  promise r ≠ Pending → promise (messageHandler ev r) = promise r.
Proof.
  intros Hp. unfold messageHandler.
  destruct (promise r) eqn:Hpr; [done | |];
    destruct (isErrorEvent ev), (content ev); simpl;
    try case_bool_decide; simpl; done.
Qed.

Lemma emit_settled (ev : StreamWorkerEvent) (r : StreamRender) :
  promise r ≠ Pending → promise (emit ev r) = promise r.
Proof.
  intros Hp. unfold emit. destruct (listening r); [|done].
  by apply messageHandler_settled.
Qed.

Lemma emitAll_settled (evs : list StreamWorkerEvent) (r : StreamRender) :
  promise r ≠ Pending → promise (emitAll evs r) = promise r.
Proof.
  revert r. induction evs as [|ev evs IH]; intros r Hp; [done |].
  change (emitAll (ev :: evs) r) with (emitAll evs (emit ev r)).
  rewrite IH; rewrite emit_settled; done.
Qed.

Lemma emitAll_snoc (evs : list StreamWorkerEvent) (ev : StreamWorkerEvent)
    (r : StreamRender) :
  emitAll (evs ++ [ev]) r = emit ev (emitAll evs r).
Proof. unfold emitAll. by rewrite foldl_snoc. Qed.

Lemma emitAll_app (evs1 evs2 : list StreamWorkerEvent) (r : StreamRender) :
  emitAll (evs1 ++ evs2) r = emitAll evs2 (emitAll evs1 r).
Proof. unfold emitAll. by rewrite foldl_app. Qed.

Lemma endedStacks_snoc (evs : list StreamWorkerEvent) (ev : StreamWorkerEvent) :
  endedStacks (evs ++ [ev])
  = match content ev with
    | None => endedStacks evs ∪ {[stack ev]}
    | Some _ => endedStacks evs
    end.
Proof.
  unfold endedStacks. rewrite filter_app, fmap_app, list_to_set_app_L.
  rewrite filter_cons, filter_nil.
  destruct (content ev) as [c|] eqn:Hc.
  - rewrite decide_False by done. set_solver.
  - rewrite decide_True by done. set_solver.
Qed.

Lemma difference_empty_mono (A E E' : gset Stack) :
  A ∖ E = ∅ → E ⊆ E' → A ∖ E' = ∅.
Proof. set_solver. Qed.

Lemma difference_empty_subseteq (A E : gset Stack) : A ∖ E = ∅ ↔ A ⊆ E.
Proof.
  split.
  - intros He x Hx. destruct (decide (x ∈ E)) as [|Hn]; [done |].
    assert (x ∈ A ∖ E) as Hin by set_solver. rewrite He in Hin. set_solver.
  - set_solver.
Qed.

Lemma allStacks_nonempty : allStacks ≠ ∅.
Proof. unfold allStacks. set_solver. Qed.

(** What holds of a dispatched render after any sequence of worker
    messages: the set is the seed minus the stacks that ended, the handler
    is registered exactly while the set is not empty, and an empty set
    means a settled promise. *)
Lemma dispatched_invariant (bus0 : RenderBus) (evs : list StreamWorkerEvent) :
  let r := emitAll evs (dispatched bus0) in
  expectedStreamEnds r = allStacks ∖ endedStacks evs ∧
  (listening r = true ↔ expectedStreamEnds r ≠ ∅) ∧
  (expectedStreamEnds r = ∅ → promise r ≠ Pending).
Proof.
  induction evs as [|ev evs IH] using rev_ind.
  - simpl. split; [|split].
    + unfold endedStacks, allStacks. set_solver.
    + split; [intros _; apply allStacks_nonempty | done].
    + intros He. by apply allStacks_nonempty in He.
  - cbv zeta in *. rewrite emitAll_snoc.
    destruct IH as (Hexp & Hlisten & Hsettle).
    set (r := emitAll evs (dispatched bus0)) in *.
    unfold emit. destruct (listening r) eqn:Hl.
    + assert (expectedStreamEnds r ≠ ∅) as Hne by by apply Hlisten.
      assert (expectedStreamEnds (messageHandler ev r)
              = allStacks ∖ endedStacks (evs ++ [ev])) as Hexp'.
      { rewrite messageHandler_expected, endedStacks_snoc, Hexp.
        generalize allStacks. destruct (content ev); set_solver. }
      split; [exact Hexp' |]. split.
      * rewrite messageHandler_listening, Hl.
        destruct (decide _) as [[He _]|Hd]; [naive_solver |].
        split; [|done]. intros _ He. apply Hd. split; [done |].
        rewrite messageHandler_expected in He.
        destruct (content ev); [done | done].
      * intros He. destruct (decide (promise r = Pending)) as [Hp|Hp].
        -- rewrite messageHandler_promise by done.
           destruct (isErrorEvent ev); [done |].
           destruct (decide _) as [Hd|Hd]; [done |].
           exfalso. apply Hd. rewrite messageHandler_expected in He.
           destruct (content ev); [done | done].
        -- by rewrite messageHandler_settled.
    + assert (expectedStreamEnds r = ∅) as He.
      { destruct (decide (expectedStreamEnds r = ∅)) as [|Hne]; [done |].
        apply Hlisten in Hne. congruence. }
      split; [|split].
      * rewrite He. symmetry. rewrite He in Hexp. symmetry in Hexp.
        apply (difference_empty_mono _ _ _ Hexp).
        rewrite endedStacks_snoc. destruct (content ev); set_solver.
      * rewrite Hl, He. naive_solver.
      * done.
Qed.

(** Without an error event the promise is fulfilled exactly when the set
    has become empty, and pending until then. *)
Lemma dispatched_promise_no_error (bus0 : RenderBus)
    (evs : list StreamWorkerEvent) :
  Forall (fun ev => isErrorEvent ev = false) evs →
  promise (emitAll evs (dispatched bus0))
  = if decide (allStacks ⊆ endedStacks evs) then Fulfilled else Pending.
Proof.
  induction evs as [|ev evs IH] using rev_ind; intros Hno.
  - simpl. rewrite decide_False; [done |].
    unfold endedStacks, allStacks. set_solver.
  - apply Forall_app in Hno as [Hno Hev].
    apply Forall_inv in Hev. simpl in Hev. specialize (IH Hno).
    rewrite emitAll_snoc.
    destruct (dispatched_invariant bus0 evs) as (Hexp & Hlisten & _).
    cbv zeta in *. set (r := emitAll evs (dispatched bus0)) in *.
    destruct (decide (allStacks ⊆ endedStacks evs)) as [Hsub|Hsub].
    + rewrite emit_settled by congruence. rewrite IH.
      rewrite decide_True; [done |].
      etrans; [exact Hsub |].
      rewrite endedStacks_snoc. destruct (content ev); set_solver.
    + assert (expectedStreamEnds r ≠ ∅) as Hne.
      { rewrite Hexp. intros He. by apply Hsub, difference_empty_subseteq. }
      apply Hlisten in Hne. unfold emit. rewrite Hne.
      rewrite messageHandler_promise by done. rewrite Hev, Hexp.
      rewrite endedStacks_snoc.
      destruct (content ev) as [c|].
      * rewrite decide_False by naive_solver. by rewrite decide_False.
      * assert (allStacks ∖ endedStacks evs ∖ {[stack ev]}
                = allStacks ∖ (endedStacks evs ∪ {[stack ev]})) as ->
          by (generalize allStacks; set_solver).
        destruct (decide (None = None ∧ _)) as [[_ He]|Hd].
        -- rewrite decide_True; [done | by apply difference_empty_subseteq].
        -- rewrite decide_False; [done |]. intros Hs. apply Hd.
           split; [done | by apply difference_empty_subseteq].
Qed.

(** The first error event, arriving while some stack is still open,
    rejects the promise; nothing that follows changes that. *)
Lemma dispatched_promise_error (bus0 : RenderBus)
    (pre post : list StreamWorkerEvent) (ev : StreamWorkerEvent) (c : string) :
  Forall (fun ev => isErrorEvent ev = false) pre →
  ¬ allStacks ⊆ endedStacks pre →
  stack ev = StackError → content ev = Some c → c ≠ "" →
  promise (emitAll (pre ++ ev :: post) (dispatched bus0)) = Rejected c.
Proof.
  intros Hno Hopen Hs Hc Hne.
  rewrite emitAll_app.
  change (emitAll (ev :: post) ?r) with (emitAll post (emit ev r)).
  pose proof (dispatched_promise_no_error bus0 pre Hno) as Hp.
  rewrite decide_False in Hp by done.
  destruct (dispatched_invariant bus0 pre) as (Hexp & Hlisten & _).
  cbv zeta in *. set (r := emitAll pre (dispatched bus0)) in *.
  assert (listening r = true) as Hl.
  { apply Hlisten. rewrite Hexp. intros He.
    by apply Hopen, difference_empty_subseteq. }
  assert (promise (emit ev r) = Rejected c) as Hrej.
  { unfold emit. rewrite Hl, messageHandler_promise by done.
    assert (isErrorEvent ev = true) as ->
      by (apply isErrorEvent_true; eauto).
    by rewrite Hc. }
  rewrite emitAll_settled; rewrite Hrej; done.
Qed.

(** C1, as stated, does not hold: an event on the error stack whose
    content is the empty string has non-null content, and the handler
    forwards it without rejecting. *)
Lemma empty_error_not_rejected_counterexample :
  stack (chunkOf StackError "") = StackError ∧
  content (chunkOf StackError "") ≠ None ∧
  promise (emit (chunkOf StackError "") (dispatched [])) = Pending ∧
  ¬ (∀ ev, stack ev = StackError → content ev ≠ None →
           ∃ c, promise (emit ev (dispatched [])) = Rejected c).
Proof.
  split; [reflexivity |]. split; [discriminate |]. split; [reflexivity |].
  intros H.
  destruct (H (chunkOf StackError "") eq_refl ltac:(discriminate)) as [c Hc].
  discriminate Hc.
Qed.

(** C1, amended.  Every worker-dispatched render seeds the set of expected
    stream ends with exactly [head], [tail], [content] and [error]; each
    end marker removes its stack from the set and nothing else changes
    it; a pending promise is resolved by a message exactly when that
    message is an end marker that empties the set, and is rejected by a
    message exactly when that message is on the error stack with a
    content that is neither null nor the empty string, whatever stacks
    are still open; the first of the two settles the promise for good. *)
Theorem workerStreamRender_protocol (bus0 : RenderBus) :
  expectedStreamEnds (newStreamRender bus0)
    = {[StackHead; StackTail; StackContent; StackError]} ∧
  promise (newStreamRender bus0) = Pending ∧
  (∀ ev r,
     expectedStreamEnds (messageHandler ev r)
     = match content ev with
       | None => expectedStreamEnds r ∖ {[stack ev]}
       | Some _ => expectedStreamEnds r
       end) ∧
  (∀ evs,
     expectedStreamEnds (emitAll evs (dispatched bus0))
     = allStacks ∖ endedStacks evs) ∧
  (∀ ev r,
     promise r = Pending →
     (promise (messageHandler ev r) = Fulfilled ↔
        content ev = None ∧ expectedStreamEnds (messageHandler ev r) = ∅) ∧
     (∀ c, promise (messageHandler ev r) = Rejected c ↔
        stack ev = StackError ∧ content ev = Some c ∧ c ≠ "")) ∧
  (∀ ev r, promise r ≠ Pending → promise (messageHandler ev r) = promise r) ∧
  (∀ evs,
     Forall (fun ev => isErrorEvent ev = false) evs →
     (promise (emitAll evs (dispatched bus0)) = Fulfilled ↔
        expectedStreamEnds (emitAll evs (dispatched bus0)) = ∅) ∧
     (promise (emitAll evs (dispatched bus0)) = Pending ↔
        expectedStreamEnds (emitAll evs (dispatched bus0)) ≠ ∅)) ∧
  (∀ pre ev post c,
     Forall (fun ev => isErrorEvent ev = false) pre →
     expectedStreamEnds (emitAll pre (dispatched bus0)) ≠ ∅ →
     stack ev = StackError → content ev = Some c → c ≠ "" →
     promise (emitAll (pre ++ ev :: post) (dispatched bus0)) = Rejected c).
Proof.
  split; [done |]. split; [done |].
  split; [apply messageHandler_expected |].
  split; [intros evs; apply (dispatched_invariant bus0 evs) |].
  split; [|split; [apply messageHandler_settled |split]].
  - intros ev r Hp.
    rewrite messageHandler_promise by done.
    rewrite messageHandler_expected.
    destruct (isErrorEvent ev) eqn:Herr.
    + apply isErrorEvent_true in Herr as [Hs (c & Hc & Hne)].
      rewrite Hc. simpl. split; [naive_solver |].
      intros c'. split.
      * intros [= <-]. done.
      * intros (_ & [= <-] & _). done.
    + split.
      * destruct (content ev) as [c|].
        -- rewrite decide_False by naive_solver. naive_solver.
        -- destruct (decide _) as [[_ He]|Hd]; naive_solver.
      * intros c. split.
        -- destruct (decide _); discriminate.
        -- intros (Hs & Hc & Hne).
           assert (isErrorEvent ev = true) by (apply isErrorEvent_true; eauto).
           congruence.
  - intros evs Hno.
    rewrite (dispatched_promise_no_error bus0 evs Hno).
    destruct (dispatched_invariant bus0 evs) as (-> & _ & _).
    rewrite difference_empty_subseteq.
    destruct (decide _); naive_solver.
  - intros pre ev post c Hno Hopen Hs Hc Hne.
    apply dispatched_promise_error; try done.
    destruct (dispatched_invariant bus0 pre) as (Hexp & _ & _).
    rewrite Hexp in Hopen. by rewrite <- difference_empty_subseteq.
Qed.

Lemma workerStreamRender_protocol_witness :
  promise (emitAll [chunkOf StackContent "<p>"; endOf StackHead;
                    chunkOf StackError "boom"; endOf StackTail]
                   (dispatched [])) = Rejected "boom" ∧
  promise (messageHandler (chunkOf StackError "boom") (dispatched []))
    = Rejected "boom".
Proof.
  destruct (workerStreamRender_protocol [])
    as (_ & _ & _ & _ & Hstep & _ & _ & Htrace).
  split.
  - apply (Htrace [chunkOf StackContent "<p>"; endOf StackHead]
                  (chunkOf StackError "boom") [endOf StackTail] "boom").
    + repeat constructor.
    + apply (bool_decide_unpack _). vm_compute. exact I.
    + reflexivity.
    + reflexivity.
    + discriminate.
  - apply (Hstep (chunkOf StackError "boom") (dispatched []) eq_refl).
    split; [reflexivity |]. split; [reflexivity | discriminate].
Defined.

(** ** The worker pool: no handle is lost *)

Lemma filter_all {A} (P : A → Prop) `{∀ x, Decision (P x)} (l : list A) :
  (∀ x, x ∈ l → P x) → filter P l = l.
Proof.
  induction l as [|x l IH]; intros Hall; [done |].
  rewrite filter_cons_True by (apply Hall; left).
  f_equal. apply IH. intros y Hy. apply Hall. by right.
Qed.

Lemma filter_fst_ne_perm (l : list (nat * nat)) (w : nat) :
  NoDup l.*1 → w ∈ l.*1 →
  w :: (filter (fun wj => wj.1 ≠ w) l).*1 ≡ₚ l.*1.
Proof.
  induction l as [|[w' j'] l IH]; intros Hnd Hin.
  - by apply elem_of_nil in Hin.
  - rewrite fmap_cons in Hnd, Hin. cbn [fst] in Hnd, Hin.
    apply NoDup_cons in Hnd as [Hnotin Hnd].
    rewrite filter_cons. cbn [fst].
    destruct (decide (w' ≠ w)) as [Hne|Heq].
    + apply elem_of_cons in Hin as [->|Hin]; [done |].
      rewrite !fmap_cons. cbn [fst]. rewrite perm_swap. by rewrite IH.
    + assert (w' = w) as -> by (destruct (decide (w' = w)); [done | naive_solver]).
      rewrite fmap_cons. cbn [fst]. f_equiv.
      rewrite filter_all; [done |]. intros [w2 j2] Hin2. simpl. intros ->.
      apply Hnotin. apply list_elem_of_fmap. by exists (w, j2).
Qed.

Lemma borrowed_NoDup (size : nat) (p : Pool) :
  pool_inv size p → NoDup (borrowed p).*1.
Proof.
  intros (Hperm & _).
  assert (NoDup (idle p ++ (borrowed p).*1)) as Hnd.
  { rewrite Hperm. apply NoDup_seq. }
  by apply NoDup_app in Hnd as (_ & _ & Hnd).
Qed.

Lemma borrowed_unique (size : nat) (p : Pool) (w j1 j2 : nat) :
  pool_inv size p → (w, j1) ∈ borrowed p → (w, j2) ∈ borrowed p → j1 = j2.
Proof.
  intros Hinv. pose proof (borrowed_NoDup size p Hinv) as Hnd. revert Hnd.
  generalize (borrowed p). intros l. induction l as [|[w' j'] l IH].
  - intros _ H. by apply elem_of_nil in H.
  - rewrite fmap_cons. cbn [fst]. intros [Hnotin Hnd]%NoDup_cons.
    rewrite !elem_of_cons. intros [H1|H1] [H2|H2].
    + congruence.
    + injection H1 as <- <-. exfalso. apply Hnotin.
      apply list_elem_of_fmap. by exists (w, j2).
    + injection H2 as <- <-. exfalso. apply Hnotin.
      apply list_elem_of_fmap. by exists (w, j1).
    + by apply IH.
Qed.

Lemma messageHandler_pending_listening (ev : StreamWorkerEvent)
    (r : StreamRender) :
  promise (messageHandler ev r) = Pending →
  listening (messageHandler ev r) = listening r.
Proof.
  unfold messageHandler. destruct (content ev) as [c|]; [done |].
  case_bool_decide; simpl; [|done].
  by destruct (isErrorEvent ev), (promise r).
Qed.

Lemma createPool_inv (size : nat) : pool_inv size (createPool size).
Proof.
  unfold pool_inv, createPool. simpl. rewrite app_nil_r.
  split; [done |]. split; [constructor |].
  split; [intros w j H | intros j H]; by apply elem_of_nil in H.
Qed.

Lemma insert_job_inv (size : nat) (p : Pool) (j : nat) (d0 : Dispatch) :
  pool_inv size p → jobs p !! j = None →
  pool_inv size {| idle := idle p; borrowed := borrowed p;
                   waiting := waiting p; jobs := <[j := d0]> (jobs p) |} ∧
  (j ∉ waiting p) ∧
  (∀ w, (w, j) ∉ borrowed p).
Proof.
  intros (Hperm & Hnd & Hb & Hw) Hfresh.
  assert (j ∉ waiting p) as Hjw.
  { intros Hin. destruct (Hw j Hin) as (d & Hd & _). congruence. }
  assert (∀ w, (w, j) ∉ borrowed p) as Hjb.
  { intros w Hin. destruct (Hb w j Hin) as (d & Hd & _). congruence. }
  split; [|done]. unfold pool_inv. simpl.
  split; [done |]. split; [done |]. split.
  - intros w j' Hin. destruct (Hb w j' Hin) as (d & Hd & Hrest).
    exists d. rewrite lookup_insert_ne; [done |].
    intros <-. by apply (Hjb w).
  - intros j' Hin. destruct (Hw j' Hin) as (d & Hd & Hdw & Hdp).
    exists d. rewrite lookup_insert_ne; [done |]. by intros <-.
Qed.

Lemma pool_use_inv (size : nat) (p : Pool) (j : nat) (d : Dispatch) :
  pool_inv size p →
  jobs p !! j = Some d → d_worker d = None → promise (d_render d) = Pending →
  j ∉ waiting p → (∀ w, (w, j) ∉ borrowed p) →
  pool_inv size (pool_use j p).
Proof.
  intros (Hperm & Hnd & Hb & Hw) Hd Hdw Hdp Hjw Hjb.
  unfold pool_use. destruct (idle p) as [|w rest] eqn:Hidle.
  - unfold pool_inv. simpl. split; [done |].
    split; [|split; [done |]].
    + apply NoDup_app. split; [done |]. split; [|apply NoDup_singleton].
      intros x Hx ->%list_elem_of_singleton. done.
    + intros j' [Hin | ->%list_elem_of_singleton]%elem_of_app.
      * by apply Hw.
      * by exists d.
  - unfold pool_inv. simpl. split; [|split; [done |split]].
    + rewrite <- Hperm. simpl. by rewrite Permutation_middle.
    + intros w' j' [[= -> ->] | Hin]%elem_of_cons.
      * exists (useCallback w d). rewrite lookup_alter_eq, Hd. done.
      * destruct (Hb w' j' Hin) as (d' & Hd' & Hrest).
        exists d'. rewrite lookup_alter_ne; [done |].
        intros <-. by apply (Hjb w').
    + intros j' Hin. destruct (Hw j' Hin) as (d' & Hd' & Hrest).
      exists d'. rewrite lookup_alter_ne; [done |]. by intros <-.
Qed.

Lemma borrowerSettled_true (w : nat) (p : Pool) :
  borrowerSettled w p = true →
  ∃ j d, (w, j) ∈ borrowed p ∧ jobs p !! j = Some d
         ∧ promise (d_render d) ≠ Pending.
Proof.
  unfold borrowerSettled, promiseOf.
  destruct (list_find _ _) as [[i [w' j]]|] eqn:Hfind; [|done].
  apply list_find_Some in Hfind as (Hi & Hw' & _). simpl in Hw'. subst w'.
  destruct (jobs p !! j) as [d|] eqn:Hd; [|done]. simpl.
  intros Hs. exists j, d. split; [by eapply list_elem_of_lookup_2 |].
  split; [done |]. intros Hp. by rewrite Hp in Hs.
Qed.

Lemma borrowerSettled_false (w : nat) (p : Pool) (j : nat) (d : Dispatch) :
  borrowerSettled w p = false →
  (∀ j', (w, j') ∈ borrowed p → j' = j) →
  (w, j) ∈ borrowed p → jobs p !! j = Some d →
  promise (d_render d) = Pending.
Proof.
  unfold borrowerSettled, promiseOf. intros Hs Huniq Hin Hd.
  destruct (list_find _ _) as [[i [w' j']]|] eqn:Hfind.
  - apply list_find_Some in Hfind as (Hi & Hw' & _). simpl in Hw'. subst w'.
    apply list_elem_of_lookup_2 in Hi. apply Huniq in Hi as ->.
    rewrite Hd in Hs. simpl in Hs. by destruct (promise (d_render d)).
  - apply list_find_None in Hfind. rewrite Forall_forall in Hfind.
    by destruct (Hfind (w, j) Hin).
Qed.

Lemma deliver_other (w : nat) (ev : StreamWorkerEvent) (d : Dispatch) :
  d_worker d ≠ Some w → deliver w ev d = d.
Proof. intros H. unfold deliver. by rewrite bool_decide_eq_false_2. Qed.

Lemma deliver_worker (w : nat) (ev : StreamWorkerEvent) (d : Dispatch) :
  d_worker (deliver w ev d) = d_worker d.
Proof. unfold deliver. by case_bool_decide. Qed.

Lemma pool_release_inv (size : nat) (p : Pool) (w : nat) :
  idle p ++ (borrowed p).*1 ≡ₚ seq 0 size →
  NoDup (waiting p) →
  (∀ w' j, (w', j) ∈ borrowed p → w' ≠ w →
     ∃ d, jobs p !! j = Some d ∧ d_worker d = Some w'
          ∧ promise (d_render d) = Pending
          ∧ listening (d_render d) = true) →
  (∀ w' j, (w', j) ∈ borrowed p → ∃ d, jobs p !! j = Some d ∧ is_Some (d_worker d)) →
  (∀ j, j ∈ waiting p →
     ∃ d, jobs p !! j = Some d ∧ d_worker d = None
          ∧ promise (d_render d) = Pending) →
  w ∈ (borrowed p).*1 →
  pool_inv size (pool_release w p).
Proof.
  intros Hperm Hnd Hb Hbw Hw Hin.
  assert (NoDup (borrowed p).*1) as Hndb.
  { assert (NoDup (idle p ++ (borrowed p).*1)) as H
      by (rewrite Hperm; apply NoDup_seq).
    by apply NoDup_app in H as (_ & _ & H). }
  pose proof (filter_fst_ne_perm _ w Hndb Hin) as Hfilter.
  unfold pool_release. destruct (waiting p) as [|j queue] eqn:Hwait.
  - unfold pool_inv. simpl. split; [|split; [constructor |split]].
    + by rewrite <- Hperm, <- Hfilter, <- app_assoc.
    + intros w' j [Hne Hin']%list_elem_of_filter. simpl in Hne.
      by apply Hb.
    + intros j Hj. by apply elem_of_nil in Hj.
  - apply NoDup_cons in Hnd as [Hjq Hndq].
    destruct (Hw j ltac:(apply elem_of_cons; by left)) as (dj & Hdj & Hdjw & Hdjp).
    unfold pool_inv. simpl. split; [|split; [done |split]].
    + rewrite <- Hperm, <- Hfilter. done.
    + intros w' j' [[= -> ->] | [Hne Hin']%list_elem_of_filter]%elem_of_cons.
      * exists (useCallback w dj). rewrite lookup_alter_eq, Hdj. done.
      * simpl in Hne. destruct (Hb w' j' Hin' Hne) as (d' & Hd' & Hrest).
        exists d'. rewrite lookup_alter_ne; [done |].
        intros <-. destruct Hrest as [Hsome _]. congruence.
    + intros j' Hj'. destruct (Hw j' ltac:(apply elem_of_cons; by right)) as (d' & Hd' & Hrest).
      exists d'. rewrite lookup_alter_ne; [done |]. by intros <-.
Qed.

Lemma pool_step_inv (size : nat) (p : Pool) (e : PoolEvent) :
  pool_inv size p → pool_inv size (pool_step p e).
Proof.
  intros Hinv. destruct e as [j bus0 | w ev]; simpl.
  - destruct (jobs p !! j) as [d|] eqn:Hj; [done |].
    destruct (insert_job_inv size p j
                {| d_render := newStreamRender bus0; d_worker := None |}
                Hinv Hj) as (Hinv' & Hjw & Hjb).
    apply (pool_use_inv size _ j
             {| d_render := newStreamRender bus0; d_worker := None |});
      [exact Hinv' | simpl; apply lookup_insert_eq | done..].
  - set (p' := {| idle := idle p; borrowed := borrowed p;
                  waiting := waiting p; jobs := deliver w ev <$> jobs p |}).
    pose proof Hinv as (Hperm & Hnd & Hb & Hw).
    assert (∀ j, j ∈ waiting p' →
       ∃ d, jobs p' !! j = Some d ∧ d_worker d = None
            ∧ promise (d_render d) = Pending) as Hw'.
    { intros j Hin. destruct (Hw j Hin) as (d & Hd & Hdw & Hdp).
      exists d. simpl. rewrite lookup_fmap, Hd. simpl.
      rewrite deliver_other by congruence. done. }
    assert (∀ w' j, (w', j) ∈ borrowed p' → w' ≠ w →
       ∃ d, jobs p' !! j = Some d ∧ d_worker d = Some w'
            ∧ promise (d_render d) = Pending
            ∧ listening (d_render d) = true) as Hb'.
    { intros w' j Hin Hne. destruct (Hb w' j Hin) as (d & Hd & Hdw & Hdp).
      exists d. simpl. rewrite lookup_fmap, Hd. simpl.
      rewrite deliver_other by congruence. done. }
    destruct (borrowerSettled w p') eqn:Hs.
    + apply pool_release_inv; try done.
      * intros w' j Hin. destruct (Hb w' j Hin) as (d & Hd & Hdw & _).
        exists (deliver w ev d). simpl. rewrite lookup_fmap, Hd.
        split; [done |]. rewrite deliver_worker, Hdw. by eexists.
      * apply borrowerSettled_true in Hs as (j & d & Hin & _).
        apply list_elem_of_fmap. by exists (w, j).
    + unfold pool_inv. split; [done |]. split; [done |]. split; [|done].
      intros w' j Hin. destruct (decide (w' = w)) as [->|Hne]; [|by apply Hb'].
      destruct (Hb w j Hin) as (d & Hd & Hdw & _ & Hdl).
      exists (deliver w ev d).
      assert (jobs p' !! j = Some (deliver w ev d)) as Hd'
        by (simpl; by rewrite lookup_fmap, Hd).
      split; [done |]. split; [by rewrite deliver_worker |].
      assert (promise (d_render (deliver w ev d)) = Pending) as Hpending.
      { eapply (borrowerSettled_false w p' j); try done.
        intros j' Hin'. by eapply (borrowed_unique size p w). }
      split; [done |].
      revert Hpending. unfold deliver. rewrite bool_decide_eq_true_2 by done.
      simpl. unfold emit. rewrite Hdl. intros Hpending.
      by rewrite messageHandler_pending_listening.
Qed.

Lemma pool_run_inv (size : nat) (es : list PoolEvent) (p : Pool) :
  pool_inv size p → pool_inv size (pool_run p es).
Proof.
  revert p. induction es as [|e es IH]; intros p Hinv; [done |].
  simpl. apply IH. by apply pool_step_inv.
Qed.

Lemma promiseOf_alter_useCallback (w j j' : nat) (js : gmap nat Dispatch)
    (idle' waiting' : list nat) (borrowed' : list (nat * nat)) :
  promiseOf {| idle := idle'; borrowed := borrowed'; waiting := waiting';
               jobs := alter (useCallback w) j' js |} j
  = (promise ∘ d_render) <$> js !! j.
Proof.
  unfold promiseOf. simpl. destruct (decide (j' = j)) as [->|Hne].
  - rewrite lookup_alter_eq. by destruct (js !! j).
  - by rewrite lookup_alter_ne.
Qed.

Lemma borrowerSettled_borrower (size : nat) (p : Pool) (w j : nat)
    (d : Dispatch) :
  pool_inv size p → (w, j) ∈ borrowed p →
  ∀ js, js !! j = Some d →
  borrowerSettled w {| idle := idle p; borrowed := borrowed p;
                       waiting := waiting p; jobs := js |}
  = settled (promise (d_render d)).
Proof.
  intros Hinv Hin js Hd. unfold borrowerSettled, promiseOf. simpl.
  destruct (list_find _ _) as [[i [w' j']]|] eqn:Hfind.
  - apply list_find_Some in Hfind as (Hi & Hw' & _). simpl in Hw'. subst w'.
    apply list_elem_of_lookup_2 in Hi.
    rewrite (borrowed_unique size p w j' j Hinv Hi Hin), Hd. done.
  - apply list_find_None in Hfind. rewrite Forall_forall in Hfind.
    by destruct (Hfind (w, j) Hin).
Qed.

(** What a message of worker [w] does to the render that holds [w]. *)
Lemma pool_step_message (size : nat) (p : Pool) (w j : nat)
    (ev : StreamWorkerEvent) :
  pool_inv size p → (w, j) ∈ borrowed p →
  ∃ d, jobs p !! j = Some d ∧ d_worker d = Some w ∧
       promise (d_render d) = Pending ∧
       let p1 := {| idle := idle p; borrowed := borrowed p;
                    waiting := waiting p;
                    jobs := deliver w ev <$> jobs p |} in
       let st := promise (messageHandler ev (d_render d)) in
       promiseOf p1 j = Some st ∧
       expectedOf p1 j
       = Some (expectedStreamEnds (messageHandler ev (d_render d))) ∧
       pool_step p (WorkerMessage w ev)
       = if settled st then pool_release w p1 else p1.
Proof.
  intros Hinv Hin. pose proof Hinv as (_ & _ & Hb & _).
  destruct (Hb w j Hin) as (d & Hd & Hdw & Hdp & Hdl).
  exists d. split; [done |]. split; [done |]. split; [done |].
  assert ((deliver w ev <$> jobs p) !! j
          = Some {| d_render := messageHandler ev (d_render d);
                    d_worker := d_worker d |}) as Hd'.
  { rewrite lookup_fmap, Hd. simpl. unfold deliver.
    rewrite bool_decide_eq_true_2 by done. unfold emit. by rewrite Hdl. }
  cbv zeta. split; [|split].
  - unfold promiseOf. simpl. by rewrite Hd'.
  - unfold expectedOf. simpl. by rewrite Hd'.
  - simpl. by rewrite (borrowerSettled_borrower size p w j _ Hinv Hin _ Hd').
Qed.

Lemma pool_release_handedBack (size : nat) (p : Pool) (w j : nat)
    (js : gmap nat Dispatch) :
  pool_inv size p → (w, j) ∈ borrowed p →
  let p1 := {| idle := idle p; borrowed := borrowed p;
               waiting := waiting p; jobs := js |} in
  promiseOf (pool_release w p1) j = promiseOf p1 j ∧
  ((w, j) ∉ borrowed (pool_release w p1)) ∧
  handedBack w p (pool_release w p1).
Proof.
  intros Hinv Hin p1. pose proof Hinv as (_ & _ & Hb & Hw).
  unfold pool_release, handedBack, p1. simpl.
  destruct (waiting p) as [|j' queue] eqn:Hwait; simpl.
  - split; [done |]. split; [|done].
    intros [Hne _]%list_elem_of_filter. by apply Hne.
  - split; [apply promiseOf_alter_useCallback |].
    split; [|split; [done | split; [by left | done]]].
    intros [[= ->] | [Hne _]%list_elem_of_filter]%elem_of_cons;
      [|by apply Hne].
    destruct (Hb w j' Hin) as (d & Hd & Hdw & _).
    destruct (Hw j' ltac:(left)) as (d' & Hd' & Hdw' & _).
    congruence.
Qed.

(** C4, as stated, does not hold.  With one worker and two renders, the
    worker reports a failure of the first render by an event on the error
    stack whose content is the empty string: the promise stays pending,
    the first render keeps the worker and the second keeps waiting. *)
Lemma empty_error_keeps_worker_counterexample :
  let p := pool_run (createPool 1)
             [RenderRequested 0 []; RenderRequested 1 []] in
  let p' := pool_step p (WorkerMessage 0 (chunkOf StackError "")) in
  borrowed p = [(0, 0)] ∧
  stack (chunkOf StackError "") = StackError ∧
  content (chunkOf StackError "") ≠ None ∧
  borrowed p' = [(0, 0)] ∧ idle p' = [] ∧ waiting p' = [1] ∧
  promiseOf p' 0 = Some Pending ∧
  ¬ (∀ ev, stack ev = StackError → content ev ≠ None →
           (0, 0) ∉ borrowed (pool_step p (WorkerMessage 0 ev))).
Proof.
  cbv zeta.
  split; [by vm_compute |]. split; [reflexivity |]. split; [discriminate |].
  split; [by vm_compute |]. split; [by vm_compute |].
  split; [by vm_compute |]. split; [by vm_compute |].
  intros H.
  apply (H (chunkOf StackError "") eq_refl ltac:(discriminate)).
  apply (bool_decide_unpack _). by vm_compute.
Qed.

(** C4, amended.  Whatever renders are requested and whatever the workers
    send, a pool created with [size] workers never has more than [size] of
    them lent out, and no worker is ever lost: idle and lent workers
    together are always exactly the workers the pool was created with.
    A new render expects the four stream ends and gets an idle worker at
    once if there is one; it queues otherwise.  A render that holds worker
    [w] has a pending promise, and the next message of [w] decides: an
    event on the error stack whose content is neither null nor empty
    rejects the promise (the job failed) and [w] is handed back;
    otherwise the end marker that empties the set of expected stream ends
    resolves the promise (the job completed) and [w] is handed back; any
    other message, an error event with empty content among them, leaves
    the promise pending and the worker with the render, an end marker
    removing its stack from the expected set.  Handed back means: lent to
    the oldest queued render if there is one, idle otherwise. *)
Theorem pool_handles_released (size : nat) (es : list PoolEvent) :
  let p := pool_run (createPool size) es in
  (length (borrowed p) ≤ size ∧
   length (idle p) + length (borrowed p) = size ∧
   idle p ++ (borrowed p).*1 ≡ₚ seq 0 size) ∧
  (∀ j bus0,
     jobs p !! j = None →
     let p' := pool_step p (RenderRequested j bus0) in
     promiseOf p' j = Some Pending ∧
     expectedOf p' j = Some allStacks ∧
     match idle p with
     | w :: rest =>
         idle p' = rest ∧ borrowed p' = (w, j) :: borrowed p
         ∧ waiting p' = waiting p
     | [] =>
         idle p' = [] ∧ borrowed p' = borrowed p
         ∧ waiting p' = waiting p ++ [j]
     end) ∧
  (∀ w j,
     (w, j) ∈ borrowed p →
     ∃ ends, expectedOf p j = Some ends ∧ promiseOf p j = Some Pending ∧
       ∀ ev,
         let p' := pool_step p (WorkerMessage w ev) in
         if isErrorEvent ev then
           promiseOf p' j = Some (Rejected (default "" (content ev))) ∧
           ((w, j) ∉ borrowed p') ∧ handedBack w p p'
         else if decide (content ev = None ∧ ends ∖ {[stack ev]} = ∅)
         then
           promiseOf p' j = Some Fulfilled ∧
           ((w, j) ∉ borrowed p') ∧ handedBack w p p'
         else
           promiseOf p' j = Some Pending ∧
           expectedOf p' j
           = Some (match content ev with
                   | None => ends ∖ {[stack ev]}
                   | Some _ => ends
                   end) ∧
           borrowed p' = borrowed p ∧ idle p' = idle p
           ∧ waiting p' = waiting p).
Proof.
  intros p.
  assert (pool_inv size p) as Hinv
    by apply pool_run_inv, createPool_inv.
  pose proof Hinv as (Hperm & _).
  assert (length (idle p) + length (borrowed p) = size) as Hlen.
  { apply Permutation_length in Hperm.
    by rewrite length_app, length_fmap, length_seq in Hperm. }
  split; [split; [lia | done] |]. split.
  - intros j bus0 Hfresh. cbv zeta. simpl. rewrite Hfresh.
    unfold pool_use. simpl. destruct (idle p) as [|w rest]; simpl.
    + split; [|split; [|done]]; unfold promiseOf, expectedOf; simpl;
        by rewrite lookup_insert_eq.
    + split; [|split; [|done]].
      * rewrite promiseOf_alter_useCallback. by rewrite lookup_insert_eq.
      * unfold expectedOf. simpl.
        by rewrite lookup_alter_eq, lookup_insert_eq.
  - intros w j Hin.
    destruct (pool_step_message size p w j
                {| content := None; stack := StackHead |} Hinv Hin)
      as (d & Hd & Hdw & Hdp & _).
    exists (expectedStreamEnds (d_render d)).
    split; [unfold expectedOf; by rewrite Hd |].
    split; [unfold promiseOf; rewrite Hd; simpl; by rewrite Hdp |].
    intros ev.
    destruct (pool_step_message size p w j ev Hinv Hin)
      as (d' & Hd' & _ & _ & Hst & Hends & Hstep).
    assert (d' = d) as -> by congruence.
    cbv zeta in *. rewrite Hstep. clear Hstep.
    rewrite messageHandler_promise in Hst |- * by done.
    rewrite messageHandler_expected in Hends.
    pose proof (pool_release_handedBack size p w j
                  (deliver w ev <$> jobs p) Hinv Hin) as Hback.
    cbv zeta in Hback. destruct Hback as (Hsame & Hout & Hback).
    destruct (isErrorEvent ev).
    + simpl. by rewrite Hsame.
    + destruct (decide _); simpl.
      * by rewrite Hsame.
      * done.
Qed.

Lemma pool_handles_released_witness :
  let p := pool_run (createPool 1)
             [RenderRequested 0 []; RenderRequested 1 []] in
  let p' := pool_step p (WorkerMessage 0 (chunkOf StackError "boom")) in
  let q := pool_run (createPool 1)
             [RenderRequested 0 [];
              WorkerMessage 0 (endOf StackHead);
              WorkerMessage 0 (chunkOf StackContent "<p>");
              WorkerMessage 0 (endOf StackContent);
              WorkerMessage 0 (endOf StackError)] in
  let q' := pool_step q (WorkerMessage 0 (endOf StackTail)) in
  ((0, 0) ∈ borrowed p ∧
   promiseOf p' 0 = Some (Rejected "boom") ∧
   ((0, 0) ∉ borrowed p') ∧
   (0, 1) ∈ borrowed p' ∧
   waiting p' = []) ∧
  ((0, 0) ∈ borrowed q ∧
   promiseOf q' 0 = Some Fulfilled ∧
   ((0, 0) ∉ borrowed q') ∧
   idle q' = [0]).
Proof.
  cbv zeta. split.
  - assert ((0, 0) ∈ borrowed (pool_run (createPool 1)
                                 [RenderRequested 0 []; RenderRequested 1 []]))
      as Hin by (apply (bool_decide_unpack _); by vm_compute).
    split; [exact Hin |].
    destruct (pool_handles_released 1
                [RenderRequested 0 []; RenderRequested 1 []])
      as (_ & _ & Hmessage).
    destruct (Hmessage 0 0 Hin) as (ends & _ & _ & Hev).
    specialize (Hev (chunkOf StackError "boom")). cbv zeta in Hev.
    change (isErrorEvent (chunkOf StackError "boom")) with true in Hev.
    cbv iota in Hev. destruct Hev as (Hrejected & Hout & Hback).
    split; [exact Hrejected |]. split; [exact Hout |].
    unfold handedBack in Hback.
    change (waiting (pool_run (createPool 1)
                       [RenderRequested 0 []; RenderRequested 1 []]))
      with [1] in Hback.
    cbv iota in Hback. destruct Hback as (_ & Hlent & Hqueue).
    split; [exact Hlent | exact Hqueue].
  - set (q := pool_run (createPool 1)
                [RenderRequested 0 [];
                 WorkerMessage 0 (endOf StackHead);
                 WorkerMessage 0 (chunkOf StackContent "<p>");
                 WorkerMessage 0 (endOf StackContent);
                 WorkerMessage 0 (endOf StackError)]).
    assert ((0, 0) ∈ borrowed q)
      as Hin by (apply (bool_decide_unpack _); by vm_compute).
    split; [exact Hin |].
    destruct (pool_handles_released 1
                [RenderRequested 0 [];
                 WorkerMessage 0 (endOf StackHead);
                 WorkerMessage 0 (chunkOf StackContent "<p>");
                 WorkerMessage 0 (endOf StackContent);
                 WorkerMessage 0 (endOf StackError)])
      as (_ & _ & Hmessage).
    destruct (Hmessage 0 0 Hin) as (ends & Hends & _ & Hev).
    assert (ends = {[StackTail]}) as ->.
    { assert (expectedOf q 0 = Some {[StackTail]}) as Hq by by vm_compute.
      fold q in Hends. congruence. }
    specialize (Hev (endOf StackTail)). cbv zeta in Hev.
    change (isErrorEvent (endOf StackTail)) with false in Hev.
    cbv iota in Hev.
    destruct (decide _) as [_ | Hno].
    + destruct Hev as (Hfulfilled & Hout & Hback).
      split; [exact Hfulfilled |]. split; [exact Hout |].
      unfold handedBack in Hback.
      change (waiting (pool_run (createPool 1)
                [RenderRequested 0 [];
                 WorkerMessage 0 (endOf StackHead);
                 WorkerMessage 0 (chunkOf StackContent "<p>");
                 WorkerMessage 0 (endOf StackContent);
                 WorkerMessage 0 (endOf StackError)]))
        with (@nil nat) in Hback.
      cbv iota in Hback. exact (proj1 Hback).
    + exfalso. apply Hno. split; [reflexivity |]. simpl. set_solver.
Defined.

(** ** [staticRender] *)

Lemma arrayMapM_require (paths : list string) (w : World) :
  match arrayMapM require paths w with
  | (Ok transformers, w') =>
      modules w' = modules w ∧ heap w' = heap w ∧
      requireLog w' = requireLog w ++ paths ∧
      Forall2 (fun path hook => modules w !! path = Some hook)
              paths transformers
  | (Throw _, w') =>
      modules w' = modules w ∧ heap w' = heap w ∧
      ∃ n, n < length paths ∧ requireLog w' = requireLog w ++ take (S n) paths
           ∧ (∃ path, paths !! n = Some path ∧ modules w !! path = None)
  end.
Proof.
  revert w. induction paths as [|path paths IH]; intros w.
  - simpl. unfold mret, M_ret. by rewrite app_nil_r.
  - cbn [arrayMapM]. unfold mbind, M_bind at 1. unfold require at 1.
    destruct (modules w !! path) as [hook|] eqn:Hhook.
    + set (w1 := {| modules := modules w; heap := heap w;
                    requireLog := requireLog w ++ [path] |}).
      specialize (IH w1). unfold mbind, M_bind at 1.
      destruct (arrayMapM require paths w1) as [[transformers|e] w'].
      * destruct IH as (Hm & Hh & Hlog & Hall).
        unfold mret, M_ret. simpl in *.
        rewrite Hlog, <- app_assoc. repeat split; try done.
        by constructor.
      * destruct IH as (Hm & Hh & n & Hn & Hlog & path' & Hp & Hnone).
        simpl in *. repeat split; try done.
        exists (S n). split; [lia |].
        rewrite Hlog, <- app_assoc. split; [done |]. by exists path'.
    + simpl. repeat split; try done.
      exists 0. split; [lia |]. split; [done |]. by exists path.
Qed.

Lemma callTransform_frame (app : ReactElement) (hook : FastifyRendererHook)
    (w : World) :
  modules (callTransform app hook w).2 = modules w ∧
  requireLog (callTransform app hook w).2 = requireLog w.
Proof.
  unfold callTransform. destruct (transform hook) as [f|]; [|done].
  by destruct (f app (heap w)).
Qed.

Lemma forOf_callTransform_frame (transformers : list FastifyRendererHook)
    (app : ReactElement) (w : World) :
  modules (forOf callTransform app transformers w).2 = modules w ∧
  requireLog (forOf callTransform app transformers w).2 = requireLog w.
Proof.
  revert app w. induction transformers as [|hook hooks' IH]; intros app w.
  - done.
  - cbn [forOf]. unfold mbind, M_bind.
    pose proof (callTransform_frame app hook w) as [Hm Hl].
    destruct (callTransform app hook w) as [[app'|e] w1]; simpl in *.
    + destruct (IH app' w1) as [Hm' Hl']. by rewrite Hm', Hl'.
    + done.
Qed.

(** A hook without [transform] stops the render: the loop calls
    [hook.transform] on every resolved hook. *)
Lemma forOf_callTransform_missing (hook : FastifyRendererHook)
    (rest : list FastifyRendererHook) (app : ReactElement) (w : World) :
  transform hook = None →
  forOf callTransform app (hook :: rest) w
  = (Throw "TypeError: hook.transform is not a function", w).
Proof.
  intros Hnone. cbn [forOf]. unfold mbind, M_bind, callTransform.
  by rewrite Hnone.
Qed.

(** The transforms run in the order of the [hooks] array, each on the
    result of the one before. *)
Lemma forOf_callTransform_order (hook : FastifyRendererHook)
    (rest : list FastifyRendererHook) (app : ReactElement) (w : World) :
  forOf callTransform app (hook :: rest) w
  = match callTransform app hook w with
    | (Ok app', w') => forOf callTransform app' rest w'
    | (Throw e, w') => (Throw e, w')
    end.
Proof. reflexivity. Qed.

(** C5.  The transforms of the hooks are applied in registration order
    (the second hook wraps the result of the first), but a hook that
    defines no [transform] is not skipped: [staticRender] calls
    [hook.transform] on every hook and the render throws.  Evaluated on
    the hooks of the test suite: a heads-only hook followed by a transform
    hook, and two transform hooks. *)
Theorem staticRender_hook_without_transform_throws :
  transform (headOnlyHook "<style></style>") = None ∧
  (staticRender (renderArgs ["simpleHeadHooks.ts"; "simpleTransformHook.ts"])
                testWorld).1
    = Throw "TypeError: hook.transform is not a function" ∧
  (staticRender (renderArgs ["simpleTransformHook.ts"; "outerHook.ts"])
                testWorld).1
    = Ok ("<Outer><TransformHook><RenderBusContext.Provider>"
          +:+ "<Router><Layout><Entrypoint>").
Proof. split; [reflexivity |]. split; vm_compute; reflexivity. Qed.

(** C3.  In sync mode the content stack receives exactly one chunk
    followed immediately by its end marker, and no error event, when the
    render returns; when the render throws there is no content event at
    all and one error event.  A content chunk and an error event never
    occur together. *)
Theorem syncRender_content_or_error (args : RenderArgs) (w : World) :
  let evs := (syncRender args w).1 in
  ((∃ html,
      (staticRender args w).1 = Ok html ∧
      evs = [chunkOf StackContent html; endOf StackContent] ∧
      eventsFor StackContent evs = [Some html; None] ∧
      chunksFor StackContent evs = [html] ∧
      eventsFor StackError evs = []) ∨
   (∃ e,
      (staticRender args w).1 = Throw e ∧
      eventsFor StackContent evs = [] ∧
      chunksFor StackContent evs = [] ∧
      eventsFor StackError evs = [Some e])) ∧
  ¬ (chunksFor StackContent evs ≠ [] ∧ eventsFor StackError evs ≠ []).
Proof.
  unfold syncRender.
  destruct (staticRender args w) as [[html|e] w'] eqn:Hr; simpl.
  - split; [left; by exists html |]. intros [_ H]. by apply H.
  - split; [right; by exists e |]. intros [H _]. by apply H.
Qed.



Lemma syncRender_content_or_error_witness :
  ¬ (chunksFor StackContent
       (syncRender (renderArgs ["simpleHeadHooks.ts"]) testWorld).1 ≠ [] ∧
     eventsFor StackError
       (syncRender (renderArgs ["simpleHeadHooks.ts"]) testWorld).1 ≠ []).
Proof.
  apply (syncRender_content_or_error (renderArgs ["simpleHeadHooks.ts"])
                                     testWorld).
Defined.

(** ** Early replies *)

Lemma startRenderBus_pushes (env : PluginEnv) (render : Render) :
  ∃ tag, (StackTail, Some tag) ∈ startRenderBus env render.
Proof.
  exists (scriptTag ("window.__FSTR_PROPS=" +:+ props render +:+ ";")
                    [("nonce", scriptNonce render)]).
  unfold startRenderBus, bus_push.
  destruct (devMode env); set_solver.
Qed.

(** C7.  When the pre-processing hook, or the handler that supplies the
    props, has sent the reply before the render phase, the bus receives
    no push on any stack and the reply is the collaborator's reply,
    status code and body unchanged.  (When neither has replied the render
    phase runs, and it does push to the bus.) *)
Theorem early_reply_no_bus_activity (env : PluginEnv)
    (preHook : Reply → Reply) (handler : Reply → string * Reply)
    (render : Render) :
  let r1 := preHook (reply render) in
  let r2 := (handler r1).2 in
  (sent r1 = true →
     renderRoute env preHook handler render = (r1, [])) ∧
  (sent r1 = false → sent r2 = true →
     renderRoute env preHook handler render = (r2, [])) ∧
  (sent r1 = false → sent r2 = false →
     (renderRoute env preHook handler render).2 ≠ []).
Proof.
  intros r1 r2. unfold renderRoute. fold r1.
  split; [|split].
  - by intros ->.
  - intros -> H2. subst r2. destruct (handler r1) as [props' r]. simpl in *.
    by rewrite H2.
  - intros -> H2. subst r2. destruct (handler r1) as [props' r]. simpl in *.
    rewrite H2. simpl.
    match goal with
    | |- startRenderBus env ?rd ≠ [] =>
        destruct (startRenderBus_pushes env rd) as [tag Htag];
        intros Hnil; rewrite Hnil in Htag; by apply elem_of_nil in Htag
    end.
Qed.

Lemma early_reply_no_bus_activity_witness :
  renderRoute testEnv replyHello (fun r => ("{a:1,b:2}", r)) testRender
    = ({| sent := true; statusCode := 201;
          payload := Some (PayloadText "hello") |}, []) ∧
  renderRoute testEnv id (fun r => ("{a:1,b:2}", replyHello r)) testRender
    = ({| sent := true; statusCode := 201;
          payload := Some (PayloadText "hello") |}, []).
Proof.
  split.
  - destruct (early_reply_no_bus_activity testEnv replyHello
                (fun r => ("{a:1,b:2}", r)) testRender) as (Hhook & _).
    exact (Hhook eq_refl).
  - destruct (early_reply_no_bus_activity testEnv id
                (fun r => ("{a:1,b:2}", replyHello r)) testRender)
      as (_ & Hhandler & _).
    exact (Hhandler eq_refl eq_refl).
Defined.

(** * Further properties *)

(** ** Paths and patterns *)

Lemma startsWith_nil_l (b : string) : startsWith "" b = true → b = "".
Proof. by destruct b. Qed.

(** X1.  [stripBasePath] returns the empty string in one case only: an empty
    path under a non-empty base.  Every other result is a non-empty
    path. *)
Theorem stripBasePath_empty_iff (p b : string) :
  stripBasePath p b = "" ↔ p = "" ∧ b ≠ "".
Proof.
  unfold stripBasePath. destruct (startsWith p b) eqn:Hpre.
  - split.
    + destruct (String.eqb _ "") eqn:He; [done |].
      apply String.eqb_neq in He. done.
    + intros [-> Hb]. by apply startsWith_nil_l in Hpre.
  - split.
    + intros ->. split; [done |]. by intros ->.
    + by intros [-> _].
Qed.

Lemma startsWith_app_l (a b needle : string) :
  startsWith a needle = true → startsWith (a +:+ b) needle = true.
Proof.
  intros H. apply startsWith_iff in H as [rest ->].
  rewrite <- string_app_assoc. apply startsWith_app.
Qed.

Lemma includes_app_l (a b needle : string) :
  includes a needle = true → includes (a +:+ b) needle = true.
Proof.
  induction a as [|c a IH].
  - intros H. apply includes_nil in H as ->. by destruct b.
  - rewrite string_app_cons. simpl. intros [H|H]%orb_true_iff.
    + apply orb_true_iff. left.
      by apply (startsWith_app_l (String c a) b needle).
    + apply orb_true_iff. right. by apply IH.
Qed.

Lemma includes_app_r (a b needle : string) :
  includes b needle = true → includes (a +:+ b) needle = true.
Proof.
  intros H. induction a as [|c a IH]; [done |].
  rewrite string_app_cons. simpl. apply orb_true_iff. by right.
Qed.

(** X2.  Converting a pattern for the client keeps its class: a pattern with a
    ["*"] still has one, a pattern without is returned unchanged, so
    [routeSortScore] gives the same rank before and after. *)
Theorem pathToRegexpify_keeps_score (path : string) :
  routeSortScore (pathToRegexpify path) = routeSortScore path.
Proof.
  unfold pathToRegexpify.
  destruct (includes path "*") eqn:Hstar.
  - destruct (includes_split _ _ Hstar) as (pre & post & -> & Hpre).
    rewrite replace_skip by done.
    unfold routeSortScore.
    rewrite (includes_app_r pre (String "*" post) "*") by done.
    rewrite (includes_app_r pre _ "*"); [done |].
    change (replace (String "*" post) "*" ":splat*") with (":splat*" +:+ post).
    apply (includes_app_l ":splat*" post "*"). reflexivity.
  - by rewrite replace_absent.
Qed.

(** X3.  The patterns [pathToRegexpify] leaves unchanged are exactly those
    without a ["*"]; every other pattern grows by the six characters of
    [":splat"]. *)
Theorem pathToRegexpify_fixed_iff (path : string) :
  (pathToRegexpify path = path ↔ includes path "*" = false) ∧
  (includes path "*" = true →
   String.length (pathToRegexpify path) = String.length path + 6).
Proof.
  assert (includes path "*" = true →
          String.length (pathToRegexpify path) = String.length path + 6) as Hlen.
  { intros Hstar. unfold pathToRegexpify.
    destruct (includes_split _ _ Hstar) as (pre & post & -> & Hpre).
    rewrite replace_skip by done.
    change (replace (String "*" post) "*" ":splat*") with (":splat*" +:+ post).
    rewrite !string_length_app. simpl. lia. }
  split; [|done]. split.
  - intros Hfix. destruct (includes path "*") eqn:Hstar; [|done].
    specialize (Hlen eq_refl). rewrite Hfix in Hlen. lia.
  - intros H. by apply replace_absent.
Qed.

Lemma pathToRegexpify_fixed_iff_witness :
  String.length (pathToRegexpify "/docs/*") = String.length "/docs/*" + 6.
Proof. apply (pathToRegexpify_fixed_iff "/docs/*"). reflexivity. Defined.

(** ** The route table, continued *)

Section SortedBySection.
Context {A : Type} (score : A → Z).

Lemma filter_score_nil (k : Z) (l : list A) :
  Forall (fun a => score a ≠ k) l → filter (fun a => score a = k) l = [].
Proof.
  induction 1 as [|x l Hx _ IH]; [done |].
  by rewrite filter_cons_False.
Qed.

Lemma filter_score_elem (l : list A) (x : A) :
  x ∈ l → x ∈ filter (fun a => score a = score x) l.
Proof. intros H. by apply list_elem_of_filter. Qed.

(** A list sorted by score is determined by its elements of each score,
    taken in order. *)
Lemma sorted_filters_unique (l1 l2 : list A) :
  StronglySorted (fun a b => (score a ≤ score b)%Z) l1 →
  StronglySorted (fun a b => (score a ≤ score b)%Z) l2 →
  (∀ k, filter (fun a => score a = k) l1 = filter (fun a => score a = k) l2) →
  l1 = l2.
Proof.
  intros H1. revert l2. induction H1 as [|x l1 Hs1 IH Hx]; intros l2 H2 Hf.
  - destruct l2 as [|y l2]; [done |].
    specialize (Hf (score y)). rewrite filter_cons_True in Hf by done.
    done.
  - destruct H2 as [|y l2 Hs2 Hy].
    { specialize (Hf (score x)). rewrite filter_cons_True in Hf by done.
      done. }
    rewrite Forall_forall in Hx, Hy.
    assert (score y = score x) as Heq.
    { assert (x ∈ y :: l2) as Hxin.
      { pose proof (Hf (score x)) as Hfx.
        rewrite filter_cons_True in Hfx by done.
        assert (x ∈ filter (fun a => score a = score x) (y :: l2)) as Hin
          by (rewrite <- Hfx; left).
        by apply list_elem_of_filter in Hin as [_ Hin]. }
      assert (y ∈ x :: l1) as Hyin.
      { pose proof (Hf (score y)) as Hfy.
        rewrite (filter_cons_True _ y) in Hfy by done.
        assert (y ∈ filter (fun a => score a = score y) (x :: l1)) as Hin
          by (rewrite Hfy; left).
        by apply list_elem_of_filter in Hin as [_ Hin]. }
      apply elem_of_cons in Hxin as [->|Hxin]; [done |].
      apply elem_of_cons in Hyin as [->|Hyin]; [done |].
      specialize (Hx y Hyin). specialize (Hy x Hxin). simpl in *. lia. }
    pose proof (Hf (score x)) as Hfx.
    rewrite filter_cons_True in Hfx by done.
    rewrite filter_cons_True in Hfx by done.
    injection Hfx as -> Hfx. f_equal. apply IH; [done |].
    intros k. destruct (decide (score y = k)) as [<-|Hne]; [done |].
    specialize (Hf k). by rewrite !filter_cons_False in Hf.
Qed.

End SortedBySection.

(** X4.  The result of the sort does not depend on the sorting algorithm: any
    array that is sorted by score and keeps, for every score, the elements
    of that score in their original order is the array [Array_sort]
    returns.  In particular sorting a sorted array changes nothing. *)
Theorem stable_sort_unique {A : Type} (score : A → Z) (l l' : list A) :
  (StronglySorted (fun a b => (score a ≤ score b)%Z) l' →
   (∀ k, filter (fun a => score a = k) l'
         = filter (fun a => score a = k) l) →
   l' = Array_sort (fun a b => (score a - score b)%Z) l) ∧
  Array_sort (fun a b => (score a - score b)%Z)
    (Array_sort (fun a b => (score a - score b)%Z) l)
  = Array_sort (fun a b => (score a - score b)%Z) l.
Proof.
  split.
  - intros Hs Hf. apply (sorted_filters_unique score); [done | |].
    + apply (Array_sort_sorted score).
    + intros k. rewrite Hf. symmetry. apply (Array_sort_stable score).
  - apply (sorted_filters_unique score).
    + apply (Array_sort_sorted score).
    + apply (Array_sort_sorted score).
    + intros k. apply (Array_sort_stable score).
Qed.

Lemma stable_sort_unique_witness :
  [(0, "/a"); (1, "/:id"); (1, "/:slug"); (2, "/*")]%Z
  = Array_sort (fun a b : Z * string => (a.1 - b.1)%Z)
      [(1, "/:id"); (2, "/*"); (0, "/a"); (1, "/:slug")]%Z.
Proof.
  destruct (stable_sort_unique (fst : Z * string → Z)
              [(1, "/:id"); (2, "/*"); (0, "/a"); (1, "/:slug")]%Z
              [(0, "/a"); (1, "/:id"); (1, "/:slug"); (2, "/*")]%Z)
    as [Hunique _].
  apply Hunique.
  - repeat constructor; simpl; lia.
  - intros k. rewrite !filter_cons, !filter_nil. cbn [fst].
    repeat case_decide; try done; lia.
Defined.

Lemma routeScore_range (route : Routeable) :
  routeScore route = 0%Z ∨ routeScore route = 1%Z ∨ routeScore route = 2%Z.
Proof.
  unfold routeScore, routeSortScore.
  destruct (includes (route_pathPattern route) "*"),
           (includes (route_pathPattern route) ":"); auto.
Qed.

Lemma filter_routeScore_below (k : Z) (x : Routeable) (l : list Routeable) :
  Forall (fun b => (routeScore x ≤ routeScore b)%Z) l →
  (k < routeScore x)%Z →
  filter (fun r => routeScore r = k) l = [].
Proof.
  intros Hx Hk. apply (filter_score_nil routeScore).
  eapply Forall_impl; [exact Hx |]. simpl. intros b Hb. lia.
Qed.

Lemma sorted_three_classes (l : list Routeable) :
  StronglySorted (fun a b => (routeScore a ≤ routeScore b)%Z) l →
  l = filter (fun r => routeScore r = 0%Z) l
      ++ filter (fun r => routeScore r = 1%Z) l
      ++ filter (fun r => routeScore r = 2%Z) l.
Proof.
  induction 1 as [|x l Hs IH Hx]; [done |].
  destruct (routeScore_range x) as [H0 | [H1 | H2]].
  - rewrite (filter_cons_True _ x) by done.
    rewrite !(filter_cons_False _ x) by lia.
    simpl. by rewrite <- IH.
  - rewrite (filter_cons_False (fun r => routeScore r = 0%Z) x) by lia.
    rewrite (filter_cons_True _ x) by done.
    rewrite (filter_cons_False _ x) by lia.
    rewrite (filter_routeScore_below 0 x l Hx) in IH |- * by lia.
    simpl in *. by rewrite <- IH.
  - rewrite !(filter_cons_False _ x) by lia.
    rewrite (filter_cons_True _ x) by done.
    rewrite (filter_routeScore_below 0 x l Hx) in IH |- * by lia.
    rewrite (filter_routeScore_below 1 x l Hx) in IH |- * by lia.
    simpl in *. by rewrite <- IH.
Qed.

(** X5.  The rows of the route table in closed form: the static routes in
    registration order, then the single-parameter routes in registration
    order, then the wildcard routes in registration order. *)
Theorem sortedRoutes_by_class (renderables : list RenderableRegistration)
    (base' : string) (ipp ir : option string) :
  let registered := routeableRenderables renderables base' ipp ir in
  sortedRoutes renderables base' ipp ir
  = filter (fun r => isStatic (route_pathPattern r) = true) registered
    ++ filter (fun r => isSingleParam (route_pathPattern r) = true) registered
    ++ filter (fun r => isWildcard (route_pathPattern r) = true) registered.
Proof.
  intros registered.
  rewrite (filter_class_score isStatic 0)
    by (intros p; apply routeSortScore_class).
  rewrite (filter_class_score isSingleParam 1)
    by (intros p; apply routeSortScore_class).
  rewrite (filter_class_score isWildcard 2)
    by (intros p; apply routeSortScore_class).
  unfold registered. rewrite <- !sortedRoutes_stable.
  apply sorted_three_classes, sortedRoutes_sorted.
Qed.

Lemma omap_routeableOf_length (renderables : list RenderableRegistration)
    (base' : string) :
  length (filterRouteable renderables base')
  = length (filter (fun r => base r = base' ∧ pathPattern r ≠ None)
                   renderables).
Proof.
  unfold filterRouteable.
  induction renderables as [|r rs IH]; [done |].
  rewrite filter_cons.
  change (omap (routeableOf base') (r :: rs))
    with (match routeableOf base' r with
          | Some y => y :: omap (routeableOf base') rs
          | None => omap (routeableOf base') rs
          end).
  unfold routeableOf at 1.
  destruct (String.eqb (base r) base') eqn:Hb.
  - apply String.eqb_eq in Hb. destruct (pathPattern r) eqn:Hp.
    + rewrite decide_True by done. cbn [length]. by rewrite IH.
    + rewrite decide_False by naive_solver. done.
  - apply String.eqb_neq in Hb. rewrite decide_False by naive_solver. done.
Qed.

(** X6.  Every registration mounted under the requested base has its row in
    the table, whatever else is registered or requested; and the table
    has one row for each of them, plus one for the imperative route when
    both imperative parameters are non-empty. *)
Theorem route_table_complete (renderables : list RenderableRegistration)
    (base' : string) (ipp ir : option string) :
  (∀ r p,
     r ∈ renderables → base r = base' → pathPattern r = Some p →
     (pathToRegexpify (stripBasePath p base'), Some (renderable r))
       ∈ pathsToModules renderables base' ipp ir) ∧
  length (pathsToModules renderables base' ipp ir)
  = length (filter (fun r => base r = base' ∧ pathPattern r ≠ None)
                   renderables)
    + (if truthy ipp && truthy ir then 1 else 0).
Proof.
  split.
  - intros r p Hin Hbase Hp. unfold pathsToModules.
    apply list_elem_of_fmap.
    exists {| route_pathPattern := p; route_fields := Some r |}.
    split; [done |]. rewrite sortedRoutes_perm.
    assert ({| route_pathPattern := p; route_fields := Some r |}
            ∈ filterRouteable renderables base') as Hroute.
    { unfold filterRouteable. apply list_elem_of_omap. exists r.
      split; [done |]. unfold routeableOf.
      apply String.eqb_eq in Hbase. by rewrite Hbase, Hp. }
    unfold routeableRenderables.
    destruct ipp as [ipp'|], ir as [ir'|]; try done.
    destruct (truthy (Some ipp') && truthy (Some ir')); [|done].
    apply elem_of_app. by left.
  - unfold pathsToModules. rewrite length_fmap.
    rewrite (Permutation_length (sortedRoutes_perm _ _ _ _)).
    unfold routeableRenderables.
    destruct ipp as [ipp'|], ir as [ir'|].
    + destruct (truthy (Some ipp') && truthy (Some ir')).
      * rewrite length_app, omap_routeableOf_length. simpl. lia.
      * rewrite omap_routeableOf_length. lia.
    + change (truthy None) with false. rewrite andb_false_r.
      rewrite omap_routeableOf_length. lia.
    + change (truthy None) with false. cbn [andb].
      rewrite omap_routeableOf_length. lia.
    + change (truthy None) with false. cbn [andb].
      rewrite omap_routeableOf_length. lia.
Qed.

Lemma route_table_complete_witness :
  ("/about", Some "About.tsx")
    ∈ pathsToModules [mounted "/app" "/app/:id" "Item.tsx";
                      mounted "/app" "/app/about" "About.tsx"]
                     "/app" None None.
Proof.
  destruct (route_table_complete
              [mounted "/app" "/app/:id" "Item.tsx";
               mounted "/app" "/app/about" "About.tsx"]
              "/app" None None) as [Hrow _].
  apply (Hrow (mounted "/app" "/app/about" "About.tsx") "/app/about").
  - apply elem_of_cons. right. apply elem_of_cons. by left.
  - reflexivity.
  - reflexivity.
Defined.

Lemma filterRouteable_filter_base (renderables : list RenderableRegistration)
    (base' : string) :
  filterRouteable (filter (fun r => base r = base') renderables) base'
  = filterRouteable renderables base'.
Proof.
  unfold filterRouteable.
  induction renderables as [|r rs IH]; [done |].
  rewrite filter_cons.
  change (omap (routeableOf base') (r :: rs))
    with (match routeableOf base' r with
          | Some y => y :: omap (routeableOf base') rs
          | None => omap (routeableOf base') rs
          end).
  destruct (decide (base r = base')) as [Hb|Hb].
  - change (omap (routeableOf base') (r :: ?l))
      with (match routeableOf base' r with
            | Some y => y :: omap (routeableOf base') l
            | None => omap (routeableOf base') l
            end).
    by rewrite IH.
  - rewrite IH. unfold routeableOf at 2.
    apply String.eqb_neq in Hb. by rewrite Hb.
Qed.

(** X7.  A table requested without imperative parameters is built from the
    registrations of its own base alone: registrations under any other
    base can be added or removed without changing a row. *)
Theorem route_table_ignores_other_bases
    (renderables : list RenderableRegistration) (base' : string) :
  pathsToModules renderables base' None None
  = pathsToModules (filter (fun r => base r = base') renderables)
                   base' None None.
Proof.
  unfold pathsToModules, sortedRoutes, routeableRenderables.
  by rewrite filterRouteable_filter_base.
Qed.

(** ** What reaches the bus *)

Lemma emitAll_not_listening (evs : list StreamWorkerEvent) (r : StreamRender) :
  listening r = false → emitAll evs r = r.
Proof.
  intros Hl. induction evs as [|ev evs IH]; [done |].
  change (emitAll (ev :: evs) r) with (emitAll evs (emit ev r)).
  unfold emit. by rewrite Hl.
Qed.

Lemma messageHandler_bus (ev : StreamWorkerEvent) (r : StreamRender) :
  bus (messageHandler ev r) = bus r ++ [pushOf ev].
Proof.
  unfold messageHandler, bus_push, pushOf.
  destruct (content ev); [done |]. by case_bool_decide.
Qed.

(** X8.  While its handler is registered, a render forwards every message of
    the worker to the bus, once and in order of arrival, whether or not
    its promise has been rejected in the meantime; it stops with the end
    marker that empties the set of expected stream ends, and forwards
    nothing after it. *)
Theorem bus_receives_forwarded (evs : list StreamWorkerEvent)
    (r : StreamRender) :
  listening r = true →
  bus (emitAll evs r)
  = bus r ++ (pushOf <$> forwarded (expectedStreamEnds r) evs).
Proof.
  revert r. induction evs as [|ev evs IH]; intros r Hl.
  - simpl. by rewrite app_nil_r.
  - change (emitAll (ev :: evs) r) with (emitAll evs (emit ev r)).
    unfold emit. rewrite Hl.
    pose proof (messageHandler_listening ev r) as Hl'.
    pose proof (messageHandler_expected ev r) as He.
    pose proof (messageHandler_bus ev r) as Hb.
    cbn [forwarded]. destruct (content ev) as [c|] eqn:Hc.
    + rewrite decide_False in Hl' by naive_solver. rewrite Hl in Hl'.
      rewrite (IH _ Hl'), Hb, He, fmap_cons, <- app_assoc. done.
    + rewrite He in Hl'.
      destruct (decide (expectedStreamEnds r ∖ {[stack ev]} = ∅)) as [Hd|Hd].
      * rewrite decide_True in Hl' by done.
        rewrite (emitAll_not_listening _ _ Hl'). by rewrite Hb.
      * rewrite decide_False in Hl' by naive_solver. rewrite Hl in Hl'.
        rewrite (IH _ Hl'), Hb, He, fmap_cons, <- app_assoc. done.
Qed.

Lemma bus_receives_forwarded_witness :
  bus (emitAll [chunkOf StackError "boom"; chunkOf StackContent "<p>";
                endOf StackHead; endOf StackTail; endOf StackContent;
                endOf StackError; chunkOf StackContent "late"]
               (dispatched []))
  = [(StackError, Some "boom"); (StackContent, Some "<p>");
     (StackHead, None); (StackTail, None); (StackContent, None);
     (StackError, None)].
Proof.
  rewrite (bus_receives_forwarded _ (dispatched []) eq_refl).
  by vm_compute.
Defined.

(** ** Tags *)

Lemma attrsString_defined (attrs : list (string * option string)) :
  attrsString attrs = attrsString (filter (fun kv => kv.2 ≠ None) attrs).
Proof.
  unfold attrsString. f_equal.
  induction attrs as [|[k v] attrs IH]; [done |].
  rewrite filter_cons. destruct v as [v|]; csimpl.
  - by rewrite IH.
  - done.
Qed.

(** X9.  Attributes whose value is undefined leave no trace in a tag, not even
    a separating space: [scriptTag] and [stylesheetLinkTag] give the same
    markup with and without them. *)
Theorem tags_skip_undefined_attrs (content' : string)
    (attrs : list (string * option string)) :
  scriptTag content' attrs
    = scriptTag content' (filter (fun kv => kv.2 ≠ None) attrs) ∧
  stylesheetLinkTag attrs
    = stylesheetLinkTag (filter (fun kv => kv.2 ≠ None) attrs).
Proof.
  unfold scriptTag, stylesheetLinkTag.
  by rewrite <- attrsString_defined.
Qed.

(** ** [staticLocationHook] *)

Lemma navigate_location (to : string) (replace' : bool) (h : LocationHook) :
  useLocation (navigate to replace' h) = useLocation h
  ∧ hook_record (navigate to replace' h) = hook_record h.
Proof. unfold navigate. destruct (hook_record h) eqn:Hr; split; done. Qed.

Lemma navigateAll_cons (nav : string * bool) (navs : list (string * bool))
    (h : LocationHook) :
  navigateAll (nav :: navs) h = navigateAll navs (navigate nav.1 nav.2 h).
Proof. reflexivity. Qed.

Lemma navigateAll_location (navs : list (string * bool)) (h : LocationHook) :
  useLocation (navigateAll navs h) = useLocation h
  ∧ hook_record (navigateAll navs h) = hook_record h.
Proof.
  revert h. induction navs as [|nav navs IH]; intros h; [done |].
  rewrite navigateAll_cons.
  destruct (IH (navigate nav.1 nav.2 h)) as [-> ->].
  apply navigate_location.
Qed.

Lemma navigateAll_no_record (navs : list (string * bool)) (h : LocationHook) :
  hook_record h = false → navigateAll navs h = h.
Proof.
  intros Hr. induction navs as [|nav navs IH]; [done |].
  rewrite navigateAll_cons. unfold navigate at 1. by rewrite Hr.
Qed.

(** X10.  The location hook never navigates: whatever is passed to [navigate],
    [hook()] keeps reporting the path the hook was created with; and a
    hook created without [record], the way the renders create it, keeps
    its history at that single path. *)
Theorem staticLocationHook_fixed_location (path : option string)
    (record : option bool) (navs : list (string * bool)) :
  useLocation (navigateAll navs (staticLocationHook path record))
    = default "/" path ∧
  (default false record = false →
   history (navigateAll navs (staticLocationHook path record))
     = [default "/" path]).
Proof.
  split.
  - by destruct (navigateAll_location navs (staticLocationHook path record))
      as [-> _].
  - intros Hr. by rewrite navigateAll_no_record.
Qed.

Lemma staticLocationHook_fixed_location_witness :
  history (navigateAll [("/about", false); ("/login", true)]
                       (staticLocationHook (Some "/render-test") None))
  = ["/render-test"].
Proof.
  apply (staticLocationHook_fixed_location (Some "/render-test") None
           [("/about", false); ("/login", true)]).
  reflexivity.
Defined.

Lemma length_removelast {A} (l : list A) :
  l ≠ [] → length (removelast l) + 1 = length l.
Proof.
  intros Hne. destruct (exists_last Hne) as (l' & x & ->).
  rewrite removelast_last, length_app. simpl. lia.
Qed.

(** X11.  A hook created with [record] keeps a history that is never empty: a
    navigation with [replace] overwrites the last entry, any other appends
    one, so after a sequence of navigations the history holds one entry
    plus one for every navigation without [replace], and its last entry
    is the destination of the last navigation. *)
Theorem staticLocationHook_recorded_history (path : option string)
    (navs : list (string * bool)) :
  let h := navigateAll navs (staticLocationHook path (Some true)) in
  length (history h)
    = 1 + length (filter (fun nav => nav.2 = false) navs) ∧
  last (history h) = Some (default (default "/" path) (fst <$> last navs)).
Proof.
  assert (∀ h, hook_record h = true → history h ≠ [] →
     length (history (navigateAll navs h))
       = length (history h) + length (filter (fun nav => nav.2 = false) navs)
     ∧ last (history (navigateAll navs h))
       = match last navs with
         | Some nav => Some nav.1
         | None => last (history h)
         end) as Hgen.
  { induction navs as [|[to rep] navs IH]; intros h Hr Hne.
    - simpl. split; [lia | done].
    - rewrite navigateAll_cons. cbn [fst snd].
      assert (hook_record (navigate to rep h) = true) as Hr'
        by (by destruct (navigate_location to rep h) as [_ ->]).
      assert (history (navigate to rep h)
              = (if rep then removelast (history h) else history h) ++ [to])
        as Hh by (unfold navigate; by rewrite Hr).
      assert (history (navigate to rep h) ≠ []) as Hne'.
      { rewrite Hh. by destruct (if rep then _ else _). }
      destruct (IH _ Hr' Hne') as [Hlen Hlast].
      rewrite Hlen, Hlast, Hh, filter_cons. cbn [snd].
      split.
      + rewrite length_app. simpl. destruct rep.
        * rewrite decide_False by done.
          pose proof (length_removelast (history h) Hne). lia.
        * rewrite decide_True by done. simpl. lia.
      + destruct navs as [|nav' navs'].
        * simpl. by rewrite last_snoc.
        * rewrite last_cons_cons.
          destruct (last (nav' :: navs')) eqn:Hl; [done |].
          rewrite last_cons in Hl. by destruct (last navs'). }
  intros h. destruct (Hgen (staticLocationHook path (Some true)))
    as [Hlen Hlast]; [done | done |].
  split; [exact Hlen |]. unfold h. rewrite Hlast.
  by destruct (last navs).
Qed.

(** ** [staticRender], continued *)

Lemma arrayMapM_require_resolved (paths : list string)
    (transformers : list FastifyRendererHook) (w : World) :
  Forall2 (fun path hook => modules w !! path = Some hook) paths transformers →
  ∃ w', arrayMapM require paths w = (Ok transformers, w') ∧
        modules w' = modules w ∧ heap w' = heap w ∧
        requireLog w' = requireLog w ++ paths.
Proof.
  intros Hall. revert w Hall.
  induction paths as [|path paths IH] in transformers |- *; intros w Hall.
  - apply Forall2_nil_inv_l in Hall as ->. exists w.
    by rewrite app_nil_r.
  - apply Forall2_cons_inv_l in Hall as (hook & rest & Hhook & Hrest & ->).
    set (w1 := {| modules := modules w; heap := heap w;
                  requireLog := requireLog w ++ [path] |}).
    destruct (IH rest w1 Hrest) as (w' & Hrun & Hm & Hh & Hl).
    exists w'. cbn [arrayMapM]. unfold mbind, M_bind. unfold require at 1.
    rewrite Hhook. fold w1. rewrite Hrun. unfold mret, M_ret.
    repeat split; try done. rewrite Hl. unfold w1. cbn [requireLog].
    by rewrite <- app_assoc.
Qed.

Lemma arrayMapM_require_missing (pre post : list string) (path : string)
    (w : World) :
  Forall (fun p => is_Some (modules w !! p)) pre →
  modules w !! path = None →
  ∃ w', arrayMapM require (pre ++ path :: post) w
          = (Throw ("Cannot find module " +:+ path), w') ∧
        modules w' = modules w ∧ heap w' = heap w ∧
        requireLog w' = requireLog w ++ pre ++ [path].
Proof.
  revert w. induction pre as [|p pre IH]; intros w Hpre Hnone.
  - eexists. cbn [app arrayMapM]. unfold mbind, M_bind. unfold require at 1.
    rewrite Hnone. done.
  - apply Forall_cons in Hpre as [[h Hh] Hpre].
    set (w1 := {| modules := modules w; heap := heap w;
                  requireLog := requireLog w ++ [p] |}).
    destruct (IH w1 Hpre Hnone) as (w' & Hrun & Hm & Hhp & Hl).
    exists w'. rewrite <- app_comm_cons. cbn [arrayMapM].
    unfold mbind, M_bind. unfold require at 1. rewrite Hh. fold w1.
    rewrite Hrun.
    repeat split; try done. rewrite Hl. unfold w1. cbn [requireLog].
    by rewrite <- app_assoc.
Qed.

Lemma forOf_callTransform_pure (transformers : list FastifyRendererHook)
    (fs : list (ReactElement → ReactElement)) (app : ReactElement) (w : World) :
  Forall2 pureTransform transformers fs →
  ∃ w', forOf callTransform app transformers w
          = (Ok (foldl (fun a f => f a) app fs), w') ∧
        modules w' = modules w ∧ heap w' = heap w ∧
        requireLog w' = requireLog w.
Proof.
  intros Hall. revert app w.
  induction Hall as [|hook f hooks' fs' Hf _ IH]; intros app w.
  - by exists w.
  - set (w1 := {| modules := modules w; heap := heap w;
                  requireLog := requireLog w |}).
    destruct (IH (f app) w1) as (w' & Hrun & Hm & Hh & Hl).
    exists w'. cbn [forOf foldl]. unfold mbind, M_bind.
    unfold callTransform at 1. rewrite Hf. fold w1. by rewrite Hrun.
Qed.

Lemma forOf_app {A B} (f : B → A → M B) (acc : B) (l1 l2 : list A) (w : World) :
  forOf f acc (l1 ++ l2) w
  = match forOf f acc l1 w with
    | (Ok acc', w') => forOf f acc' l2 w'
    | (Throw e, w') => (Throw e, w')
    end.
Proof.
  revert acc w. induction l1 as [|x l1 IH]; intros acc w; [done |].
  rewrite <- app_comm_cons. cbn [forOf]. unfold mbind, M_bind.
  destruct (f acc x w) as [[acc'|e] w']; [apply IH | done].
Qed.

(** X12.  When every hook resolves and every transform only rebuilds the tree,
    [staticRender] renders the initial tree with the transforms applied
    one after the other in the order of [hooks], the first hook innermost;
    the hooks' variables are left as they were and each hook has been
    resolved once. *)
Theorem staticRender_transforms_compose (args : RenderArgs) (w : World)
    (transformers : list FastifyRendererHook)
    (fs : list (ReactElement → ReactElement)) :
  Forall2 (fun path hook => modules w !! path = Some hook)
          (hooks args) transformers →
  Forall2 pureTransform transformers fs →
  (staticRender args w).1
    = renderToString (module args)
        (foldl (fun app f => f app) (initialApp args) fs) ∧
  heap (staticRender args w).2 = heap w ∧
  requireLog (staticRender args w).2 = requireLog w ++ hooks args.
Proof.
  intros Hres Hpure.
  destruct (arrayMapM_require_resolved _ _ w Hres)
    as (w1 & Hrun1 & Hm1 & Hh1 & Hl1).
  destruct (forOf_callTransform_pure _ _ (initialApp args) w1 Hpure)
    as (w2 & Hrun2 & Hm2 & Hh2 & Hl2).
  unfold staticRender, mbind, M_bind. rewrite Hrun1, Hrun2.
  unfold liftResult. simpl. split; [done |]. split; congruence.
Qed.

Lemma staticRender_transforms_compose_witness :
  (staticRender (renderArgs ["simpleTransformHook.ts"; "outerHook.ts"])
                testWorld).1
  = Ok (showTypes
          (wrapWith "Outer"
             (wrapWith "TransformHook"
                (initialApp
                   (renderArgs ["simpleTransformHook.ts"; "outerHook.ts"]))))).
Proof.
  apply (staticRender_transforms_compose
           (renderArgs ["simpleTransformHook.ts"; "outerHook.ts"]) testWorld
           [transformHook "TransformHook"; transformHook "Outer"]
           [wrapWith "TransformHook"; wrapWith "Outer"]).
  - repeat constructor.
  - repeat constructor.
Defined.

(** X13.  A hook path that does not resolve stops the render at once:
    [staticRender] throws for the first such path, the paths after it are
    not resolved, and no transform has run, not even those of the hooks
    that come before it. *)
Theorem staticRender_missing_module (args : RenderArgs) (w : World)
    (pre post : list string) (path : string) :
  hooks args = pre ++ path :: post →
  Forall (fun p => is_Some (modules w !! p)) pre →
  modules w !! path = None →
  (staticRender args w).1 = Throw ("Cannot find module " +:+ path) ∧
  heap (staticRender args w).2 = heap w ∧
  requireLog (staticRender args w).2 = requireLog w ++ pre ++ [path].
Proof.
  intros Hhooks Hpre Hnone.
  destruct (arrayMapM_require_missing pre post path w Hpre Hnone)
    as (w' & Hrun & _ & Hh & Hl).
  unfold staticRender, mbind, M_bind. rewrite Hhooks, Hrun. done.
Qed.

Lemma staticRender_missing_module_witness :
  heap (staticRender
          (renderArgs ["thunkCounterHook.ts"; "missing.ts"; "outerHook.ts"])
          testWorld).2 = heap testWorld.
Proof.
  apply (staticRender_missing_module
           (renderArgs ["thunkCounterHook.ts"; "missing.ts"; "outerHook.ts"])
           testWorld ["thunkCounterHook.ts"] ["outerHook.ts"] "missing.ts").
  - reflexivity.
  - apply Forall_cons. split; [|constructor].
    eexists. vm_compute. reflexivity.
  - by vm_compute.
Defined.

(** X14.  A hook without [transform] makes the render throw wherever it
    stands in [hooks], provided the transforms of the hooks before it
    return.  All hooks have been resolved by then and the transforms of
    the hooks before it have run: the render ends in the world those
    transforms leave when started, in the order of [hooks], on the initial
    tree after the resolution.  Nothing is rendered: the outcome is the
    same whatever [renderToString] is. *)
Theorem staticRender_missing_transform (args : RenderArgs) (w w' : World)
    (pre post : list FastifyRendererHook) (hook : FastifyRendererHook)
    (app' : ReactElement) :
  Forall2 (fun path hook => modules w !! path = Some hook)
          (hooks args) (pre ++ hook :: post) →
  transform hook = None →
  forOf callTransform (initialApp args) pre (required (hooks args) w)
    = (Ok app', w') →
  staticRender args w
    = (Throw "TypeError: hook.transform is not a function", w') ∧
  requireLog w' = requireLog w ++ hooks args ∧
  (∀ render',
     staticRender (withRenderToString render' args) w = staticRender args w).
Proof.
  intros Hres Hnone Hpre.
  destruct (arrayMapM_require_resolved _ _ w Hres)
    as (w1 & Hrun1 & Hm1 & Hh1 & Hl1).
  assert (w1 = required (hooks args) w) as ->.
  { destruct w1. simpl in *. unfold required. congruence. }
  assert (staticRender args w
          = (Throw "TypeError: hook.transform is not a function", w'))
    as Hrun.
  { unfold staticRender, mbind, M_bind. rewrite Hrun1, forOf_app, Hpre.
    by rewrite forOf_callTransform_missing. }
  split; [exact Hrun |]. split.
  - pose proof (forOf_callTransform_frame pre (initialApp args)
                  (required (hooks args) w)) as [_ Hlog].
    rewrite Hpre in Hlog. exact Hlog.
  - intros render'. rewrite Hrun.
    unfold staticRender, mbind, M_bind.
    change (hooks (withRenderToString render' args)) with (hooks args).
    change (initialApp (withRenderToString render' args))
      with (initialApp args).
    rewrite Hrun1, forOf_app, Hpre.
    by rewrite forOf_callTransform_missing.
Qed.

Lemma staticRender_missing_transform_witness :
  (staticRender
     (renderArgs ["thunkCounterHook.ts"; "simpleHeadHooks.ts";
                  "outerHook.ts"]) testWorld).1
  = Throw "TypeError: hook.transform is not a function" ∧
  heap (staticRender
          (renderArgs ["thunkCounterHook.ts"; "simpleHeadHooks.ts";
                       "outerHook.ts"]) testWorld).2
    !! "thunkCounterHook.ts" = Some 1.
Proof.
  edestruct (staticRender_missing_transform
               (renderArgs ["thunkCounterHook.ts"; "simpleHeadHooks.ts";
                            "outerHook.ts"]) testWorld)
    with (pre := [counterHook "thunkCounterHook.ts"])
         (post := [transformHook "Outer"])
         (hook := headOnlyHook "<style></style>")
    as (Hrun & _ & _).
  - repeat constructor.
  - reflexivity.
  - reflexivity.
  - rewrite Hrun. split; [reflexivity | by vm_compute].
Defined.

(** ** The worker's preload *)

Lemma resolved_all (paths : list string) (w : World) :
  Forall (fun p => is_Some (modules w !! p)) paths →
  ∃ hs, Forall2 (fun p h => modules w !! p = Some h) paths hs.
Proof.
  induction 1 as [|p ps Hp _ IH]; [by exists [] |].
  destruct Hp as [h Hh]. destruct IH as [hs IH].
  exists (h :: hs). by constructor.
Qed.

(** X15.  In a worker the preload returns exactly when every path of
    [workerData.paths] resolves, and it has then required each of them
    once, in order; every later [staticRender] whose hooks are among those
    paths finds all its hooks.  Outside a worker the preload does nothing,
    and in a worker without [workerData] it throws. *)
Theorem preload_resolves_hooks (paths : list string) (w : World) :
  ((preload true (Some paths) w).1 = Ok tt ↔
     Forall (fun p => is_Some (modules w !! p)) paths) ∧
  ((preload true (Some paths) w).1 = Ok tt →
   requireLog (preload true (Some paths) w).2 = requireLog w ++ paths ∧
   ∀ args, hooks args ⊆ paths →
     ∃ transformers w1,
       arrayMapM require (hooks args) (preload true (Some paths) w).2
       = (Ok transformers, w1)) ∧
  preload false (Some paths) w = (Ok tt, w) ∧
  (preload true None w).1 = Throw "No Worker Data".
Proof.
  assert ((preload true (Some paths) w).1 = Ok tt →
          Forall (fun p => is_Some (modules w !! p)) paths) as Hall.
  { unfold preload, mbind, M_bind.
    pose proof (arrayMapM_require paths w) as Hreq.
    destruct (arrayMapM require paths w) as [[hs|e] w1]; [|done].
    intros _. destruct Hreq as (_ & _ & _ & Hres).
    eapply Forall2_Forall_l; [exact Hres |].
    apply Forall_forall. intros h _ p Hp. by exists h. }
  assert (Forall (fun p => is_Some (modules w !! p)) paths →
          ∃ hs w1, arrayMapM require paths w = (Ok hs, w1)
                   ∧ modules w1 = modules w
                   ∧ requireLog w1 = requireLog w ++ paths) as Hok.
  { intros Hres.
    destruct (resolved_all paths w Hres) as [hs Hhs].
    destruct (arrayMapM_require_resolved _ _ w Hhs) as (w1 & Hrun & Hm & _ & Hl).
    by exists hs, w1. }
  split; [|split; [|done]].
  - split; [exact Hall |]. intros Hres.
    destruct (Hok Hres) as (hs & w1 & Hrun & _).
    unfold preload, mbind, M_bind. by rewrite Hrun.
  - intros Hrun. specialize (Hall Hrun).
    destruct (Hok Hall) as (hs & w1 & Hrun1 & Hm & Hl).
    assert ((preload true (Some paths) w).2 = w1) as ->
      by (unfold preload, mbind, M_bind; by rewrite Hrun1).
    split; [done |]. intros args Hsub.
    destruct (resolved_all (hooks args) w1) as [hs' Hhs'].
    { rewrite Hm. rewrite Forall_forall in Hall |- *.
      intros p Hp. apply Hall. by apply Hsub. }
    destruct (arrayMapM_require_resolved _ _ w1 Hhs') as (w2 & Hrun2 & _).
    by exists hs', w2.
Qed.

Lemma preload_resolves_hooks_witness :
  requireLog (preload true (Some ["outerHook.ts"; "simpleTransformHook.ts"])
                      testWorld).2
  = ["outerHook.ts"; "simpleTransformHook.ts"].
Proof.
  destruct (preload_resolves_hooks ["outerHook.ts"; "simpleTransformHook.ts"]
                                   testWorld) as (_ & Hlog & _).
  apply Hlog. by vm_compute.
Defined.

(** ** Virtual module ids *)

Lemma startsWith_long (a b needle : string) :
  String.length needle ≤ String.length a →
  startsWith (a +:+ b) needle = startsWith a needle.
Proof.
  revert a. induction needle as [|c needle IH]; intros a Hlen; [done |].
  destruct a as [|x a]; [simpl in Hlen; lia |].
  rewrite string_app_cons. simpl. case_decide; [|done].
  apply IH. simpl in Hlen. lia.
Qed.

Lemma startsWith_short (s needle : string) :
  String.length s < String.length needle → startsWith s needle = false.
Proof.
  revert s. induction needle as [|c needle IH]; intros s Hlen.
  - simpl in Hlen. lia.
  - destruct s as [|x s]; [done |]. simpl. case_decide; [|done].
    apply IH. simpl in Hlen. lia.
Qed.

Lemma string_init_snoc (s : string) :
  s ≠ "" → ∃ c, s = string_init s +:+ String c "".
Proof.
  induction s as [|x s IH]; [done |]. intros _.
  destruct s as [|y s].
  - by exists x.
  - destruct IH as [c Hc]; [done |]. exists c.
    change (string_init (String x (String y s)))
      with (String x (string_init (String y s))).
    by rewrite string_app_cons, <- Hc.
Qed.

Lemma string_init_length (s : string) :
  s ≠ "" → String.length (string_init s) + 1 = String.length s.
Proof.
  intros Hne. destruct (string_init_snoc s Hne) as [c Hc].
  rewrite Hc at 2. rewrite string_length_app. simpl. lia.
Qed.

Lemma replace_unfold (s pat repl : string) :
  replace s pat repl
  = if startsWith s pat then repl +:+ slice s (String.length pat)
    else match s with
         | "" => ""
         | String c s' => String c (replace s' pat repl)
         end.
Proof. by destruct s. Qed.

Lemma replace_prefix (pat rest repl : string) :
  replace (pat +:+ rest) pat repl = repl +:+ rest.
Proof.
  by rewrite replace_unfold, startsWith_app, string_slice_app.
Qed.

Lemma stripFromMarker_unfold (marker s : string) :
  stripFromMarker marker s
  = if startsWith s marker
       && negb (String.eqb (slice s (String.length marker)) "")
       && negb (hasLineTerminator (slice s (String.length marker)))
    then ""
    else match s with
         | "" => ""
         | String c s' => String c (stripFromMarker marker s')
         end.
Proof. by destruct s. Qed.

(** Cutting at the marker: when the marker does not begin anywhere inside
    [head], the string [head ++ marker ++ query] is cut back to [head]. *)
Lemma stripFromMarker_cut (marker head query : string) :
  marker ≠ "" →
  includes (head +:+ string_init marker) marker = false →
  query ≠ "" → hasLineTerminator query = false →
  stripFromMarker marker (head +:+ marker +:+ query) = head.
Proof.
  intros Hm Hhead Hq Hlt. destruct (string_init_snoc marker Hm) as [l Hl].
  induction head as [|c head IH].
  - rewrite string_app_nil_l, stripFromMarker_unfold.
    rewrite startsWith_app, string_slice_app, Hlt.
    by rewrite (eqb_empty_false _ Hq).
  - apply includes_cons_false in Hhead as [Hstart Hrest].
    rewrite string_app_cons, stripFromMarker_unfold.
    assert (startsWith (String c (head +:+ marker +:+ query)) marker = false)
      as ->.
    { rewrite <- string_app_cons. rewrite Hl at 1.
      rewrite <- (string_app_assoc (string_init marker)).
      rewrite (string_app_assoc (String c head)).
      rewrite startsWith_long; [done |].
      rewrite string_length_app. simpl.
      pose proof (string_init_length marker Hm). lia. }
    simpl. f_equal. by apply IH.
Qed.

(** With nothing after the marker there is no match, and nothing is cut. *)
Lemma stripFromMarker_short (marker s : string) :
  String.length s ≤ String.length marker → stripFromMarker marker s = s.
Proof.
  induction s as [|c s IH]; intros Hlen.
  - rewrite stripFromMarker_unfold.
    destruct (startsWith "" marker) eqn:Hs; [|done].
    apply startsWith_iff in Hs as [rest Hs].
    destruct marker; [done | discriminate].
  - rewrite stripFromMarker_unfold.
    destruct (startsWith (String c s) marker) eqn:Hs.
    + apply startsWith_split in Hs. 
      assert (slice (String c s) (String.length marker) = "") as ->.
      { destruct (slice (String c s) (String.length marker)) eqn:Hsl; [done |].
        rewrite Hs, string_length_app in Hlen. simpl in Hlen. lia. }
      simpl. f_equal. apply IH. simpl in Hlen. lia.
    + simpl. f_equal. apply IH. simpl in Hlen. lia.
Qed.

Lemma stripFromMarker_no_query (marker head : string) :
  marker ≠ "" →
  includes (head +:+ string_init marker) marker = false →
  stripFromMarker marker (head +:+ marker) = head +:+ marker.
Proof.
  intros Hm Hhead. destruct (string_init_snoc marker Hm) as [l Hl].
  induction head as [|c head IH].
  - rewrite string_app_nil_l. by apply stripFromMarker_short.
  - apply includes_cons_false in Hhead as [Hstart Hrest].
    rewrite string_app_cons, stripFromMarker_unfold.
    assert (startsWith (String c (head +:+ marker)) marker = false) as ->.
    { rewrite <- string_app_cons. rewrite Hl at 1.
      rewrite (string_app_assoc (String c head)).
      rewrite startsWith_long; [done |].
      rewrite string_length_app. simpl.
      pose proof (string_init_length marker Hm). lia. }
    simpl. f_equal. by apply IH.
Qed.

Lemma includes_short (s needle : string) :
  String.length s < String.length needle → includes s needle = false.
Proof.
  induction s as [|c s IH]; intros Hlen.
  - simpl. by rewrite startsWith_short.
  - cbn [includes]. rewrite startsWith_short by done.
    apply IH. simpl in Hlen. lia.
Qed.

Lemma startsWith_cons (x c : Ascii.ascii) (s needle : string) :
  startsWith (String x s) (String c needle)
  = if decide (x = c) then startsWith s needle else false.
Proof. reflexivity. Qed.

Lemma startsWith_blocked (c : Ascii.ascii) (needle h t : string) :
  includes needle (String c "") = false →
  startsWith h needle = false →
  startsWith (h +:+ String c t) needle = false.
Proof.
  revert h. induction needle as [|y needle IH]; intros h Hc Hh; [done |].
  apply includes_cons_false in Hc as [Hy Hc]. simpl in Hy.
  destruct h as [|x h].
  - rewrite string_app_nil_l. simpl.
    destruct (decide (y = c)) as [->|Hne]; [done |].
    by rewrite decide_False.
  - rewrite string_app_cons. simpl in *. case_decide; [|done]. by apply IH.
Qed.

(** A marker whose first character occurs nowhere else in it cannot begin
    inside [head] and end inside the marker that follows. *)
Lemma no_straddle (c : Ascii.ascii) (m head : string) :
  includes m (String c "") = false →
  includes head (String c m) = false →
  includes (head +:+ string_init (String c m)) (String c m) = false.
Proof.
  intros Hc. induction head as [|x head IH]; intros Hhead.
  - rewrite string_app_nil_l. apply includes_short.
    pose proof (string_init_length (String c m) ltac:(done)). lia.
  - apply includes_cons_false in Hhead as [Hstart Hrest].
    rewrite string_app_cons. cbn [includes].
    rewrite (IH Hrest), orb_false_r.
    destruct m as [|y m].
    + simpl in Hstart. simpl. by destruct (decide (x = c)).
    + change (string_init (String c (String y m)))
        with (String c (string_init (String y m))).
      rewrite startsWith_cons in Hstart |- *.
      destruct (decide (x = c)) as [->|Hne]; [|done].
      by apply startsWith_blocked.
Qed.

(** X16.  [serverEntrypointVitePlugin.load] recovers the renderable from the id
    of a server entrypoint.  For an id made of the server prefix, the
    renderable, ["/ssr.jsx?"] and a query, the module imported as
    [Entrypoint] is the renderable, provided the renderable does not
    itself contain ["/ssr.jsx?"] and the query is not empty and has no
    line terminator; with an empty query the suffix is not removed; and an
    id that does not start with the prefix is not loaded. *)
Theorem serverEntrypointOf_roundtrip (renderable' query : string) :
  includes renderable' "/ssr.jsx?" = false →
  (query ≠ "" → hasLineTerminator query = false →
   serverEntrypointOf
     (SERVER_ENTRYPOINT_PREFIX +:+ renderable' +:+ "/ssr.jsx?" +:+ query)
   = Some renderable') ∧
  serverEntrypointOf (SERVER_ENTRYPOINT_PREFIX +:+ renderable' +:+ "/ssr.jsx?")
  = Some (renderable' +:+ "/ssr.jsx?") ∧
  (∀ id, startsWith id SERVER_ENTRYPOINT_PREFIX = false →
         serverEntrypointOf id = None).
Proof.
  intros Hr.
  pose proof (no_straddle "/" "ssr.jsx?" renderable' eq_refl Hr) as Hhead.
  unfold serverEntrypointOf. split; [|split].
  - intros Hq Hlt. rewrite startsWith_app, replace_prefix, string_app_nil_l.
    by rewrite stripFromMarker_cut.
  - rewrite startsWith_app, replace_prefix, string_app_nil_l.
    by rewrite stripFromMarker_no_query.
  - by intros id ->.
Qed.

Lemma serverEntrypointOf_roundtrip_witness :
  serverEntrypointOf
    (SERVER_ENTRYPOINT_PREFIX +:+ "/srv/views/Home.tsx" +:+ "/ssr.jsx?"
     +:+ "layout=%2Fsrv%2FLayout.tsx&base=")
  = Some "/srv/views/Home.tsx".
Proof.
  apply (serverEntrypointOf_roundtrip "/srv/views/Home.tsx"
           "layout=%2Fsrv%2FLayout.tsx&base=");
    [reflexivity | discriminate | reflexivity].
Defined.

(** X17.  [hydrationEntrypointVitePlugin.load] does the same for the client:
    the prefix becomes ["/@fs/"] and everything from ["/hydrate.jsx?"] on
    is dropped, so the module imported as [Entrypoint] is ["/@fs/"]
    followed by the renderable, provided that path does not itself contain
    ["/hydrate.jsx?"] and the query is not empty and has no line
    terminator. *)
Theorem clientEntrypointOf_roundtrip (renderable' query : string) :
  includes ("/@fs/" +:+ renderable') "/hydrate.jsx?" = false →
  query ≠ "" → hasLineTerminator query = false →
  clientEntrypointOf
    (CLIENT_ENTRYPOINT_PREFIX +:+ renderable' +:+ "/hydrate.jsx?" +:+ query)
  = Some ("/@fs/" +:+ renderable').
Proof.
  intros Hr Hq Hlt.
  pose proof (no_straddle "/" "hydrate.jsx?" _ eq_refl Hr) as Hhead.
  unfold clientEntrypointOf.
  rewrite startsWith_app, replace_prefix.
  rewrite (string_app_assoc "/@fs/" renderable').
  by rewrite stripFromMarker_cut.
Qed.

Lemma clientEntrypointOf_roundtrip_witness :
  clientEntrypointOf
    (CLIENT_ENTRYPOINT_PREFIX +:+ "/srv/views/Home.tsx" +:+ "/hydrate.jsx?"
     +:+ "layout=%2Fsrv%2FLayout.tsx&base=")
  = Some "/@fs//srv/views/Home.tsx".
Proof.
  apply (clientEntrypointOf_roundtrip "/srv/views/Home.tsx"
           "layout=%2Fsrv%2FLayout.tsx&base=");
    [reflexivity | discriminate | reflexivity].
Defined.

(** X18.  No id belongs to two of the renderer's plugins: an id that starts
    with one of the three prefixes starts with neither of the other two,
    so at most one [resolveId] claims it. *)
Theorem plugin_prefixes_disjoint (id : string) :
  (is_Some (resolveId CLIENT_ENTRYPOINT_PREFIX id) →
   resolveId SERVER_ENTRYPOINT_PREFIX id = None
   ∧ resolveId ROUTE_TABLE_ID id = None) ∧
  (is_Some (resolveId SERVER_ENTRYPOINT_PREFIX id) →
   resolveId CLIENT_ENTRYPOINT_PREFIX id = None
   ∧ resolveId ROUTE_TABLE_ID id = None) ∧
  (is_Some (resolveId ROUTE_TABLE_ID id) →
   resolveId CLIENT_ENTRYPOINT_PREFIX id = None
   ∧ resolveId SERVER_ENTRYPOINT_PREFIX id = None).
Proof.
  unfold resolveId.
  split; [|split]; intros Hsome;
    match type of Hsome with
    | is_Some (if startsWith id ?p then _ else _) =>
        destruct (startsWith id p) eqn:Hp; [|by destruct Hsome];
        apply startsWith_split in Hp; rewrite Hp
    end; split; reflexivity.
Qed.

Lemma plugin_prefixes_disjoint_witness :
  resolveId CLIENT_ENTRYPOINT_PREFIX
    "/@fstr!server-entrypoint:/srv/views/Home.tsx/ssr.jsx?base=" = None.
Proof.
  destruct (plugin_prefixes_disjoint
              "/@fstr!server-entrypoint:/srv/views/Home.tsx/ssr.jsx?base=")
    as (_ & Hserver & _).
  apply Hserver. by eexists.
Defined.

(** ** The renderer's life cycle *)

Section LifecycleFacts.
Import Lifecycle.

Variable path_join : list string → string.
Variable querystring_stringify : list (string * string) → string.
Variable mapFilepathToEntrypointName : string → string.
Variable requireBuilt : string → result unit.
Variable ssrLoadModule : string → result unit.

#[local] Abbreviation entrypointRequirePathForServer :=
  (Lifecycle.entrypointRequirePathForServer path_join querystring_stringify).
#[local] Abbreviation builtPath :=
  (Lifecycle.builtPath path_join mapFilepathToEntrypointName).
#[local] Abbreviation loadModule :=
  (Lifecycle.loadModule path_join mapFilepathToEntrypointName
     requireBuilt ssrLoadModule).
#[local] Abbreviation loadAll :=
  (Lifecycle.loadAll path_join querystring_stringify
     mapFilepathToEntrypointName requireBuilt ssrLoadModule).
#[local] Abbreviation getPreloadPaths :=
  (Lifecycle.getPreloadPaths path_join querystring_stringify
     mapFilepathToEntrypointName).
#[local] Abbreviation prepare :=
  (Lifecycle.prepare path_join querystring_stringify
     mapFilepathToEntrypointName requireBuilt ssrLoadModule).
#[local] Abbreviation workerRenderInput :=
  (Lifecycle.workerRenderInput path_join querystring_stringify
     mapFilepathToEntrypointName).
#[local] Abbreviation resolves :=
  (Lifecycle.resolves path_join querystring_stringify
     mapFilepathToEntrypointName requireBuilt ssrLoadModule).

(** The lookups of a renderer depend on its plugin only. *)
Lemma entrypointRequirePathForServer_plugin (this this' : ReactRenderer)
    (register : RenderableRegistration) :
  plugin this' = plugin this →
  entrypointRequirePathForServer this' register
  = entrypointRequirePathForServer this register.
Proof.
  intros H. unfold Lifecycle.entrypointRequirePathForServer. by rewrite H.
Qed.

Lemma loadAll_Ok (this : ReactRenderer)
    (renderables' : list RenderableRegistration) :
  loadAll this renderables' = Ok tt ↔ Forall (resolves this) renderables'.
Proof.
  induction renderables' as [|reg regs IH].
  - split; [constructor | done].
  - cbn [Lifecycle.loadAll]. unfold mbind, result_bind.
    rewrite Forall_cons, <- IH. unfold Lifecycle.resolves.
    destruct (entrypointRequirePathForServer this reg) as [id|e].
    + destruct (loadModule this id) as [[]|e] eqn:Hload.
      * split; [|by intros [_ ?]]. intros H. split; [|done]. by exists id.
      * split; [done |]. intros [(id' & [= <-] & Hl) _]. congruence.
    + split; [done |]. by intros [(id' & ? & _) _].
Qed.

Lemma loadAll_first_failure (this : ReactRenderer)
    (pre post : list RenderableRegistration) (reg : RenderableRegistration)
    (e : string) :
  Forall (resolves this) pre →
  (entrypointRequirePathForServer this reg = Throw e ∨
   ∃ id, entrypointRequirePathForServer this reg = Ok id
         ∧ loadModule this id = Throw e) →
  loadAll this (pre ++ reg :: post) = Throw e.
Proof.
  intros Hpre Hfail. induction Hpre as [|r rs (id & Hid & Hload) _ IH].
  - cbn [app Lifecycle.loadAll]. unfold mbind, result_bind.
    destruct Hfail as [-> | (id & -> & ->)]; done.
  - rewrite <- app_comm_cons. cbn [Lifecycle.loadAll].
    unfold mbind, result_bind. by rewrite Hid, Hload.
Qed.

Lemma getPreloadPaths_resolved (this : ReactRenderer) :
  Forall (resolves this) (renderables this) →
  ∃ ids, Forall2 (fun reg id => entrypointRequirePathForServer this reg = Ok id)
                 (renderables this) ids
         ∧ getPreloadPaths this = Ok (builtPath this <$> ids).
Proof.
  unfold Lifecycle.getPreloadPaths.
  generalize (renderables this) as regs.
  induction regs as [|reg regs IH]; intros Hall.
  - by exists [].
  - apply Forall_cons in Hall as [(id & Hid & _) Hall].
    destruct (IH Hall) as (ids & Hids & Hrun).
    exists (id :: ids). split; [by constructor |].
    cbn [mapM]. unfold mbind, result_bind, mret, result_ret in Hrun |- *.
    rewrite Hid. cbn. unfold mbind, result_bind in Hrun. by rewrite Hrun.
Qed.

(** X19.  In production [prepare] returns exactly when every registration has a
    non-empty entry in the server manifest and the module it names loads;
    it has then stored the registrations and the plugin's hook paths and
    configured the pool with one worker per processor, each worker
    preloading the built module of every registration, in registration
    order, followed by the hook paths. *)
Theorem prepare_builds_pool (renderables' : list RenderableRegistration)
    (cpus : nat) (this : ReactRenderer) :
  devMode (plugin this) = false →
  ((prepare renderables' cpus this).1 = Ok tt ↔
     Forall (resolves this) renderables') ∧
  ((prepare renderables' cpus this).1 = Ok tt →
   ∃ ids,
     Forall2 (fun reg id => entrypointRequirePathForServer this reg = Ok id)
             renderables' ids ∧
     workerPool (prepare renderables' cpus this).2
       = Some {| pool_size := cpus;
                 pool_paths := (builtPath this <$> ids)
                               ++ hooks (plugin this) |} ∧
     renderables (prepare renderables' cpus this).2 = renderables' ∧
     hookPaths (prepare renderables' cpus this).2 = hooks (plugin this)).
Proof.
  intros Hprod. unfold Lifecycle.prepare. rewrite Hprod.
  set (this1 := {| plugin := plugin this; options_mode := options_mode this;
                   renderables := renderables';
                   hookPaths := hooks (plugin this);
                   workerPool := workerPool this |}).
  assert (∀ regs, Forall (resolves this1) regs ↔ Forall (resolves this) regs)
    as Hsame by done.
  pose proof (loadAll_Ok this1 renderables') as Hload.
  destruct (loadAll this1 renderables') as [[]|e] eqn:Hrun.
  - assert (Forall (resolves this1) renderables') as Hall by by apply Hload.
    destruct (getPreloadPaths_resolved this1 Hall) as (ids & Hids & Hpaths).
    rewrite Hpaths. simpl. split; [by rewrite <- Hsame |].
    intros _. by exists ids.
  - simpl. split; [|done]. split; [done |].
    intros Hall. apply Hsame, Hload in Hall. done.
Qed.

(** X20.  When a registration does not resolve, [prepare] throws the error of
    the first one that fails, in registration order, whether the manifest
    lookup or the loading of the module failed; no pool is created, and
    the registrations and hook paths assigned before the loop stay
    assigned. *)
Theorem prepare_first_failure (pre post : list RenderableRegistration)
    (reg : RenderableRegistration) (e : string) (cpus : nat)
    (this : ReactRenderer) :
  devMode (plugin this) = false →
  Forall (resolves this) pre →
  (entrypointRequirePathForServer this reg = Throw e ∨
   ∃ id, entrypointRequirePathForServer this reg = Ok id
         ∧ loadModule this id = Throw e) →
  (prepare (pre ++ reg :: post) cpus this).1 = Throw e ∧
  workerPool (prepare (pre ++ reg :: post) cpus this).2 = workerPool this ∧
  renderables (prepare (pre ++ reg :: post) cpus this).2 = pre ++ reg :: post ∧
  hookPaths (prepare (pre ++ reg :: post) cpus this).2 = hooks (plugin this).
Proof.
  intros Hprod Hpre Hfail. unfold Lifecycle.prepare. rewrite Hprod.
  set (this1 := {| plugin := plugin this; options_mode := options_mode this;
                   renderables := pre ++ reg :: post;
                   hookPaths := hooks (plugin this);
                   workerPool := workerPool this |}).
  by rewrite (loadAll_first_failure this1 pre post reg e Hpre Hfail).
Qed.

(** X21.  After a [prepare] that returned, every render of a registered
    renderable gets as far as its message to the worker: the manifest
    lookup succeeds and the pool exists.  The module path in the message
    and every hook path in it are among the paths the workers preloaded,
    and the destination is the request url with the base path stripped. *)
Theorem render_after_prepare (renderables' : list RenderableRegistration)
    (cpus : nat) (this : ReactRenderer) (render : Render) :
  devMode (plugin this) = false →
  (prepare renderables' cpus this).1 = Ok tt →
  registration render ∈ renderables' →
  ∃ input pool,
    workerRenderInput (prepare renderables' cpus this).2 render = Ok input ∧
    workerPool (prepare renderables' cpus this).2 = Some pool ∧
    msg_modulePath input ∈ pool_paths pool ∧
    msg_hooks input ⊆ pool_paths pool ∧
    msg_hooks input = hooks (plugin this) ∧
    msg_destination input
      = stripBasePath (request_url render) (base (registration render)).
Proof.
  intros Hprod Hok Hin. revert Hok.
  unfold Lifecycle.prepare. rewrite Hprod.
  set (this1 := {| plugin := plugin this; options_mode := options_mode this;
                   renderables := renderables';
                   hookPaths := hooks (plugin this);
                   workerPool := workerPool this |}).
  pose proof (loadAll_Ok this1 renderables') as Hload.
  destruct (loadAll this1 renderables') as [[]|e] eqn:Hrun; [|done].
  assert (Forall (resolves this1) renderables') as Hall by by apply Hload.
  destruct (getPreloadPaths_resolved this1 Hall) as (ids & Hids & Hpaths).
  rewrite Hpaths. intros _. cbn [snd].
  destruct (proj1 (list_elem_of_lookup _ _) Hin) as [i Hi].
  destruct (Forall2_lookup_l _ _ _ _ _ Hids Hi) as (id & Hid & Hreq).
  assert (∀ t, plugin t = plugin this1 →
            entrypointRequirePathForServer t (registration render) = Ok id)
    as Hreq'.
  { intros t Ht.
    by rewrite (entrypointRequirePathForServer_plugin this1 t _ Ht). }
  eexists _, _. unfold Lifecycle.workerRenderInput.
  rewrite Hreq' by reflexivity. unfold mbind, result_bind.
  cbn [workerPool].
  split; [reflexivity |]. split; [reflexivity |].
  cbn [msg_modulePath msg_hooks msg_destination pool_paths hookPaths plugin].
  split; [|split; [|done]].
  - apply elem_of_app. left. apply list_elem_of_fmap. exists id.
    split; [done |]. by eapply list_elem_of_lookup_2.
  - intros p Hp. apply elem_of_app. by right.
Qed.

(** X22.  In dev mode [prepare] creates no pool, so on a renderer that was only
    constructed and prepared every call of [workerStreamRender] throws
    ['WorkerPool not setup'] before anything is sent to a worker. *)
Theorem dev_mode_has_no_pool (plugin' : FastifyRendererPlugin) (mode' : Mode)
    (renderables' : list RenderableRegistration) (cpus : nat) :
  devMode plugin' = true →
  (prepare renderables' cpus (newReactRenderer plugin' mode')).1 = Ok tt ∧
  workerPool (prepare renderables' cpus (newReactRenderer plugin' mode')).2
    = None ∧
  ∀ render,
    workerRenderInput
      (prepare renderables' cpus (newReactRenderer plugin' mode')).2 render
    = Throw "WorkerPool not setup".
Proof.
  intros Hdev. unfold Lifecycle.prepare, newReactRenderer. cbn [plugin].
  rewrite Hdev. split; [done |]. split; [done |].
  intros render. unfold Lifecycle.workerRenderInput,
    Lifecycle.entrypointRequirePathForServer. cbn. by rewrite Hdev.
Qed.

End LifecycleFacts.

Lemma prepare_builds_pool_witness :
  ∃ ids,
    Forall2 (fun reg id =>
               Lifecycle.entrypointRequirePathForServer
                 examplePathJoin exampleStringify
                 (Lifecycle.newReactRenderer (examplePlugin false) sync) reg
               = Ok id) [homeView] ids ∧
    Lifecycle.workerPool
      (Lifecycle.prepare examplePathJoin exampleStringify id
         exampleLoad exampleLoad [homeView] 4
         (Lifecycle.newReactRenderer (examplePlugin false) sync)).2
    = Some {| Lifecycle.pool_size := 4;
              Lifecycle.pool_paths :=
                (Lifecycle.builtPath examplePathJoin id
                   (Lifecycle.newReactRenderer (examplePlugin false) sync)
                 <$> ids) ++ ["hook.ts"] |} ∧
    Lifecycle.renderables
      (Lifecycle.prepare examplePathJoin exampleStringify id
         exampleLoad exampleLoad [homeView] 4
         (Lifecycle.newReactRenderer (examplePlugin false) sync)).2
    = [homeView] ∧
    Lifecycle.hookPaths
      (Lifecycle.prepare examplePathJoin exampleStringify id
         exampleLoad exampleLoad [homeView] 4
         (Lifecycle.newReactRenderer (examplePlugin false) sync)).2
    = ["hook.ts"].
Proof.
  destruct (prepare_builds_pool examplePathJoin exampleStringify id
              exampleLoad exampleLoad [homeView] 4
              (Lifecycle.newReactRenderer (examplePlugin false) sync)
              eq_refl) as [_ Hpool].
  apply Hpool. by vm_compute.
Defined.

Lemma prepare_first_failure_witness :
  (Lifecycle.prepare examplePathJoin exampleStringify id
     exampleLoad exampleLoad ([homeView] ++ aboutView :: [homeView]) 4
     (Lifecycle.newReactRenderer (examplePlugin false) sync)).1
  = Throw (Lifecycle.notInManifest aboutView
             (Lifecycle.buildVirtualServerEntrypointModuleID
                examplePathJoin exampleStringify aboutView)).
Proof.
  apply (prepare_first_failure examplePathJoin exampleStringify id
           exampleLoad exampleLoad [homeView] [homeView] aboutView).
  - reflexivity.
  - constructor; [|constructor]. eexists. split; [by vm_compute | done].
  - left. by vm_compute.
Defined.

Lemma render_after_prepare_witness :
  ∃ input pool,
    Lifecycle.workerRenderInput examplePathJoin exampleStringify id
      (Lifecycle.prepare examplePathJoin exampleStringify id
         exampleLoad exampleLoad [homeView] 4
         (Lifecycle.newReactRenderer (examplePlugin false) sync)).2
      exampleRender = Ok input ∧
    Lifecycle.workerPool
      (Lifecycle.prepare examplePathJoin exampleStringify id
         exampleLoad exampleLoad [homeView] 4
         (Lifecycle.newReactRenderer (examplePlugin false) sync)).2
    = Some pool ∧
    Lifecycle.msg_modulePath input ∈ Lifecycle.pool_paths pool ∧
    Lifecycle.msg_hooks input ⊆ Lifecycle.pool_paths pool ∧
    Lifecycle.msg_hooks input = ["hook.ts"] ∧
    Lifecycle.msg_destination input = stripBasePath "/" "".
Proof.
  apply (render_after_prepare examplePathJoin exampleStringify id
           exampleLoad exampleLoad [homeView] 4
           (Lifecycle.newReactRenderer (examplePlugin false) sync)
           exampleRender).
  - reflexivity.
  - by vm_compute.
  - apply list_elem_of_singleton. reflexivity.
Defined.

Lemma dev_mode_has_no_pool_witness :
  Lifecycle.workerRenderInput examplePathJoin exampleStringify id
    (Lifecycle.prepare examplePathJoin exampleStringify id
       exampleLoad exampleLoad [homeView] 4
       (Lifecycle.newReactRenderer (examplePlugin true) sync)).2
    exampleRender
  = Throw "WorkerPool not setup".
Proof.
  apply (dev_mode_has_no_pool examplePathJoin exampleStringify id
           exampleLoad exampleLoad (examplePlugin true) sync [homeView] 4).
  reflexivity.
Defined.
